(** * Edmonton GPS route server: the graph core

    A shallow embedding of [server/digraph.py] and [server/dijkstra.py]:
    the [Digraph] class with its two adjacency dictionaries, the path
    check, the random graph generator, breadth-first [shortest_path],
    [compress], and Dijkstra's [least_cost_path].

    Conventions.
    - Vertices are Python integers, modelled as [Z].
    - A Python [dict] is a [gmap], a Python [set] is a [gset]; the list
      [visited] of [shortest_path] stays a list.
    - The order in which Python iterates over a set or a dictionary is not
      fixed by the language.  Every function that iterates takes an
      [IterOrder] which provides some enumeration of the container; the
      theorems hold for all of them.
    - A call either returns, raises, or is cut off because the [fuel] of a
      [while] loop ran out; see [outcome].
    - Edge costs are whatever the cost function returns; the search only
      uses [0], [+] and [<] on them, see [Number].  Python's [int] and
      [Fraction] are modelled by the rationals ([Q]), Python's [float] by
      the binary64 numbers ([float]). *)

From Stdlib Require Import QArith Lqa.
From Stdlib Require Import Floats.PrimFloat Floats.FloatOps Floats.SpecFloat.
From stdpp Require Import gmap strings list fin_maps pretty.

Close Scope Q_scope.

(** ** Outcomes of a call *)

Inductive exn : Type :=
  | KeyError
  | IndexError
  | ValueError (msg : string).

Inductive outcome (A : Type) : Type :=
  | Return (a : A)
  | Raise (e : exn)
  | OutOfFuel.
Arguments Return {A} a.
Arguments Raise {A} e.
Arguments OutOfFuel {A}.

#[global] Instance outcome_ret : MRet outcome := λ A a, Return a.
#[global] Instance outcome_bind : MBind outcome := λ A B f m,
  match m with
  | Return a => f a
  | Raise e => Raise e
  | OutOfFuel => OutOfFuel
  end.

(** [d[k]] on a dictionary: a missing key raises [KeyError]. *)
Definition getitem {V : Type} (d : gmap Z V) (k : Z) : outcome V :=
  match d !! k with
  | Some x => Return x
  | None => Raise KeyError
  end.

(** [l[i]] on a list (non-negative index). *)
Definition list_getitem {A : Type} (l : list A) (i : nat) : outcome A :=
  match l !! i with
  | Some x => Return x
  | None => Raise IndexError
  end.

(** ** Iteration order *)

Record IterOrder : Type := {
  set_iter : gset Z → list Z;
  dict_iter : ∀ A : Type, gmap Z A → list (Z * A);
  set_iter_perm : ∀ s, set_iter s ≡ₚ elements s;
  dict_iter_perm : ∀ A (m : gmap Z A), dict_iter A m ≡ₚ map_to_list m
}.
Arguments dict_iter _ {A} _.
Arguments dict_iter_perm _ {A} _.

(** One concrete order, used to run the functions on examples. *)
Definition canonical_order : IterOrder :=
  {| set_iter := elements;
     dict_iter := λ A, map_to_list;
     set_iter_perm := λ s, reflexivity (elements s);
     dict_iter_perm := λ A m, reflexivity (map_to_list m) |}.

(** ** class Digraph *)

Record Digraph : Type := {
  _tosets : gmap Z (gset Z);
  _fromsets : gmap Z (gset Z)
}.

(** [Digraph()] with no edges. *)
Definition Digraph_empty : Digraph := {| _tosets := ∅; _fromsets := ∅ |}.

Definition add_vertex (G : Digraph) (v : Z) : Digraph :=
  if decide (v ∉ dom (_tosets G)) then
    {| _tosets := <[v := ∅]> (_tosets G);
       _fromsets := <[v := ∅]> (_fromsets G) |}
  else G.

Definition add_edge (G : Digraph) (e : Z * Z) : outcome Digraph :=
  let G := add_vertex (add_vertex G e.1) e.2 in
  s ← getitem (_tosets G) e.1;
  let tos := <[e.1 := s ∪ {[e.2]}]> (_tosets G) in
  t ← getitem (_fromsets G) e.2;
  mret {| _tosets := tos; _fromsets := <[e.2 := t ∪ {[e.1]}]> (_fromsets G) |}.

(** [Digraph(edges)]: the constructor adds the edges one by one. *)
Fixpoint add_edges (G : Digraph) (edges : list (Z * Z)) : outcome Digraph :=
  match edges with
  | [] => mret G
  | e :: edges => G' ← add_edge G e; add_edges G' edges
  end.

Definition Digraph_init (edges : list (Z * Z)) : outcome Digraph :=
  add_edges Digraph_empty edges.

Definition vertices (G : Digraph) : gset Z := dom (_tosets G).

Definition edges (G : Digraph) : gset (Z * Z) :=
  map_fold (λ v s acc, set_map (λ w, (v, w)) s ∪ acc) ∅ (_tosets G).

Definition num_edges (G : Digraph) : nat :=
  map_fold (λ _ s m, m + size s) 0 (_tosets G).

Definition num_vertices (G : Digraph) : nat := size (_tosets G).

Definition adj_to (G : Digraph) (v : Z) : outcome (gset Z) :=
  getitem (_tosets G) v.

Definition adj_from (G : Digraph) (v : Z) : outcome (gset Z) :=
  getitem (_fromsets G) v.

(** The [while] loop of [is_path]: [path] is the part of the list from
    index [i] on; the loop runs while two elements are left. *)
Fixpoint is_path_while (G : Digraph) (path : list Z) : outcome bool :=
  match path with
  | v :: ((w :: _) as rest) =>
      s ← adj_to G v;
      if decide (w ∉ s) then mret false else is_path_while G rest
  | _ => mret true
  end.

Definition is_path (G : Digraph) (path : list Z) : outcome bool :=
  match path with
  | [] => mret false
  | [v] => if decide (v ∈ vertices G) then mret true else mret false
  | _ => is_path_while G path
  end.

(** *** Graph states and walks, as propositions *)

(** The sequences of mutations a caller can apply to a graph. *)
Inductive mutation : Type :=
  | AddVertex (v : Z)
  | AddEdge (e : Z * Z).

Definition mutate (G : Digraph) (m : mutation) : outcome Digraph :=
  match m with
  | AddVertex v => mret (add_vertex G v)
  | AddEdge e => add_edge G e
  end.

Fixpoint mutate_all (G : Digraph) (ms : list mutation) : outcome Digraph :=
  match ms with
  | [] => mret G
  | m :: ms => G' ← mutate G m; mutate_all G' ms
  end.

(** [w ∈ forward[v]], false when [v] is not a key. *)
Definition forward (G : Digraph) (v w : Z) : Prop :=
  ∃ s, _tosets G !! v = Some s ∧ w ∈ s.

Definition backward (G : Digraph) (w v : Z) : Prop :=
  ∃ t, _fromsets G !! w = Some t ∧ v ∈ t.

Record Digraph_wf (G : Digraph) : Prop := {
  wf_mirror : ∀ v w, forward G v w ↔ backward G w v;
  wf_keys : dom (_tosets G) = dom (_fromsets G)
}.

(** A walk of the graph: a non-empty sequence of vertices of the graph
    in which every consecutive pair is a forward edge. *)
Fixpoint consecutive (G : Digraph) (p : list Z) : Prop :=
  match p with
  | v :: ((w :: _) as rest) => forward G v w ∧ consecutive G rest
  | _ => True
  end.

Definition valid_walk (G : Digraph) (p : list Z) : Prop :=
  p ≠ [] ∧ Forall (λ v, v ∈ vertices G) p ∧ consecutive G p.

Definition path_from_to (G : Digraph) (s d : Z) (p : list Z) : Prop :=
  valid_walk G p ∧ head p = Some s ∧ last p = Some d.

(** ** random_graph *)

(** [random.sample(range(n), 2)] draws two distinct vertices.  The draws
    are read from [samples]; the loop is cut off when they run out.
    [log] lists the mutating calls made on the new graph so far; the
    source does not keep this list, it is there to state what has happened
    to the graph when the call ends. *)
Fixpoint random_graph_while (n m : Z) (G : Digraph) (samples : list (Z * Z))
    (log : list mutation) : outcome Digraph * list mutation :=
  if decide (Z.of_nat (num_edges G) < m)%Z then
    if decide (n < 2)%Z then
      (Raise (ValueError "Sample larger than population or is negative"), log)
    else
      match samples with
      | [] => (OutOfFuel, log)
      | e :: samples =>
          match add_edge G e with
          | Return G' => random_graph_while n m G' samples (log ++ [AddEdge e])
          | Raise x => (Raise x, log ++ [AddEdge e])
          | OutOfFuel => (OutOfFuel, log ++ [AddEdge e])
          end
      end
  else (Return G, log).

Definition random_graph_message (n m max_num_edges : Z) : string :=
  "For " +:+ pretty n +:+ " vertices, you wanted " +:+ pretty m +:+
  " edges, but can only have a maximum of " +:+ pretty max_num_edges.

Definition random_graph_run (n m : Z) (samples : list (Z * Z))
    : outcome Digraph * list mutation :=
  let G := foldl add_vertex Digraph_empty (seqZ 0 n) in
  let log := AddVertex <$> seqZ 0 n in
  let max_num_edges := (n * (n - 1))%Z in
  if decide (m > max_num_edges)%Z then
    (Raise (ValueError (random_graph_message n m max_num_edges)), log)
  else random_graph_while n m G samples log.

Definition random_graph (n m : Z) (samples : list (Z * Z)) : outcome Digraph :=
  (random_graph_run n m samples).1.

(** The calls [G.add_vertex(v)] and [G.add_edge(e)] made by the time
    [random_graph] returns or raises. *)
Definition random_graph_mutations (n m : Z) (samples : list (Z * Z))
    : list mutation :=
  (random_graph_run n m samples).2.

(** What [random.sample(range(n), 2)] can return. *)
Definition sample_ok (n : Z) (e : Z * Z) : Prop :=
  (0 ≤ e.1 < n)%Z ∧ (0 ≤ e.2 < n)%Z ∧ e.1 ≠ e.2.

(** ** spanning_tree *)

(** [l.pop()]: the last element and the list without it. *)
Fixpoint list_pop {A : Type} (l : list A) : option (A * list A) :=
  match l with
  | [] => None
  | x :: l' =>
      match list_pop l' with
      | None => Some (x, [])
      | Some (y, r) => Some (y, x :: r)
      end
  end.

(** The body of [for n in G.adj_to(cur)]. *)
Definition spanning_tree_for (cur : Z) (visited : gset Z)
    (todo : list (Z * option (Z * Z))) (n : Z) : list (Z * option (Z * Z)) :=
  if decide (n ∉ visited) then todo ++ [(n, Some (cur, n))] else todo.

(** The [while todo] loop.  An entry of [todo] is a vertex with the edge
    over which it was reached, [None] for the start. *)
Fixpoint spanning_tree_while (O : IterOrder) (fuel : nat) (G : Digraph)
    (todo : list (Z * option (Z * Z))) (visited : gset Z) (T : Digraph)
    : outcome Digraph :=
  match fuel with
  | 0 => OutOfFuel
  | S fuel =>
      match list_pop todo with
      | None => mret T
      | Some ((cur, e), todo) =>
          if decide (cur ∈ visited) then
            spanning_tree_while O fuel G todo visited T
          else
            let visited := visited ∪ {[cur]} in
            T ← match e with
                | Some e => add_edge T e
                | None => mret T
                end;
            adjs ← adj_to G cur;
            spanning_tree_while O fuel G
              (foldl (spanning_tree_for cur visited) todo (set_iter O adjs))
              visited T
      end
  end.

(** [visited = set()], [todo = [(start, None)]], [T = Digraph()], then the
    loop. *)
Definition spanning_tree (O : IterOrder) (fuel : nat) (G : Digraph)
    (start : Z) : outcome Digraph :=
  spanning_tree_while O fuel G [(start, None)] ∅ Digraph_empty.

(** ** shortest_path *)

(** The body of [for adj in G.adj_to(vertex)]. *)
Definition shortest_path_for (path : list Z)
    (st : list (list Z) * list Z) (adj : Z) : list (list Z) * list Z :=
  if decide (adj ∈ st.2) then st
  else (st.1 ++ [path ++ [adj]], st.2 ++ [adj]).

(** The [while queue] loop.  Besides the result it yields the list of the
    vertices whose neighbours were iterated, in order ([expanded]); the
    source does not keep this list, it is there to state how often a
    vertex is expanded. *)
Fixpoint shortest_path_while (O : IterOrder) (fuel : nat) (G : Digraph)
    (dest : Z) (queue : list (list Z)) (visited : list Z) (expanded : list Z)
    : outcome (option (list Z)) * list Z :=
  match fuel with
  | 0 => (OutOfFuel, expanded)
  | S fuel =>
      match queue with
      | [] => (Return None, expanded)
      | path :: queue =>
          match list_getitem path (length path - 1) with
          | Return vertex =>
              if decide (vertex = dest) then (Return (Some path), expanded)
              else
                match adj_to G vertex with
                | Return adjs =>
                    let st := foldl (shortest_path_for path) (queue, visited)
                                    (set_iter O adjs) in
                    shortest_path_while O fuel G dest st.1 st.2
                                        (expanded ++ [vertex])
                | Raise e => (Raise e, expanded)
                | OutOfFuel => (OutOfFuel, expanded)
                end
          | Raise e => (Raise e, expanded)
          | OutOfFuel => (OutOfFuel, expanded)
          end
      end
  end.

Definition shortest_path_run (O : IterOrder) (fuel : nat) (G : Digraph)
    (source dest : Z) : outcome (option (list Z)) * list Z :=
  if decide (source ∉ vertices G ∨ dest ∉ vertices G) then (Return None, [])
  else shortest_path_while O fuel G dest [[source]] [] [].

(** [shortest_path(G, source, dest)]; [None] is Python's [None]. *)
Definition shortest_path (O : IterOrder) (fuel : nat) (G : Digraph)
    (source dest : Z) : outcome (option (list Z)) :=
  (shortest_path_run O fuel G source dest).1.

Definition shortest_path_expanded (O : IterOrder) (fuel : nat) (G : Digraph)
    (source dest : Z) : list Z :=
  (shortest_path_run O fuel G source dest).2.

(** ** compress *)

(** [for (i,v) in enumerate(walk): lasttime[v] = i] *)
Definition compress_lasttime (walk : list Z) : gmap Z nat :=
  foldl (λ lasttime iv, <[iv.2 := iv.1]> lasttime) ∅ (imap pair walk).

Fixpoint compress_while (fuel : nat) (walk : list Z) (lasttime : gmap Z nat)
    (i : nat) (rv : list Z) : outcome (list Z) :=
  match fuel with
  | 0 => OutOfFuel
  | S fuel =>
      if decide (i < length walk) then
        v ← list_getitem walk i;
        j ← getitem lasttime v;
        compress_while fuel walk lasttime (j + 1) (rv ++ [v])
      else mret rv
  end.

Definition compress (fuel : nat) (walk : list Z) : outcome (list Z) :=
  compress_while fuel walk (compress_lasttime walk) 0 [].

(** ** least_cost_path *)

(** The numbers of the search.  [least_cost_path] takes the costs from the
    caller's [cost] function and does three things with them: it starts
    from [0], it adds with [+] and it compares with [<] (also inside
    [min]). *)
Class Number (Num : Type) : Type := {
  num_zero : Num;
  num_add : Num → Num → Num;
  num_lt : Num → Num → bool
}.

(** Python's [int] and [Fraction]: [+] and [<] are exact. *)
#[global] Instance Q_Number : Number Q := {|
  num_zero := 0%Q;
  num_add := Qplus;
  num_lt := λ a b, if Qlt_le_dec a b then true else false
|}.


(** [min(items, key=lambda x: x[1])]: the first item of least value. *)
Definition min_item {Num : Type} `{Number Num} (items : list (Z * Num))
    : outcome (Z * Num) :=
  match items with
  | [] => Raise (ValueError "min() arg is an empty sequence")
  | x :: items =>
      mret (foldl (λ best y, if num_lt y.2 best.2 then y else best) x items)
  end.

(** The state of the search: the three containers of the source, and the
    list of the edges handed to [cost] so far ([calls]), which the source
    does not keep. *)
Record search (Num : Type) : Type := {
  todo : gmap Z Num;
  visited : gset Z;
  parent : gmap Z Z;
  calls : list (Z * Z)
}.
Arguments todo {Num} _.
Arguments visited {Num} _.
Arguments parent {Num} _.
Arguments calls {Num} _.

(** The body of [for n in G.adj_to(cur)].  [cost] is called once in the
    comparison when [n] is in [todo], and once more for the assignment. *)
Definition least_cost_path_for {Num : Type} `{Number Num} (cost : Z * Z → Num)
    (cur : Z) (c : Num) (st : search Num) (n : Z) : search Num :=
  if decide (n ∈ visited st) then st
  else
    match todo st !! n with
    | None =>
        {| todo := <[n := num_add c (cost (cur, n))]> (todo st);
           visited := visited st;
           parent := <[n := cur]> (parent st);
           calls := calls st ++ [(cur, n)] |}
    | Some t =>
        if num_lt (num_add c (cost (cur, n))) t then
          {| todo := <[n := num_add c (cost (cur, n))]> (todo st);
             visited := visited st;
             parent := <[n := cur]> (parent st);
             calls := calls st ++ [(cur, n); (cur, n)] |}
        else
          {| todo := todo st; visited := visited st; parent := parent st;
             calls := calls st ++ [(cur, n)] |}
    end.

(** [while todo and (dest not in visited)] *)
Fixpoint least_cost_path_while {Num : Type} `{Number Num} (O : IterOrder)
    (fuel : nat) (G : Digraph) (dest : Z) (cost : Z * Z → Num) (st : search Num)
    : outcome (search Num) * list (Z * Z) :=
  match fuel with
  | 0 => (OutOfFuel, calls st)
  | S fuel =>
      if decide (todo st ≠ ∅ ∧ dest ∉ visited st) then
        match min_item (dict_iter O (todo st)) with
        | Return (cur, c) =>
            let st := {| todo := delete cur (todo st);
                         visited := visited st ∪ {[cur]};
                         parent := parent st;
                         calls := calls st |} in
            match adj_to G cur with
            | Return adjs =>
                least_cost_path_while O fuel G dest cost
                  (foldl (least_cost_path_for cost cur c) st (set_iter O adjs))
            | Raise e => (Raise e, calls st)
            | OutOfFuel => (OutOfFuel, calls st)
            end
        | Raise e => (Raise e, calls st)
        | OutOfFuel => (OutOfFuel, calls st)
        end
      else (Return st, calls st)
  end.

(** [while parent[vertex_iterator] != start] *)
Fixpoint least_cost_path_back (fuel : nat) (parent : gmap Z Z) (start : Z)
    (vertex_iterator : Z) (path : list Z) : outcome (list Z) :=
  match fuel with
  | 0 => OutOfFuel
  | S fuel =>
      p ← getitem parent vertex_iterator;
      if decide (p ≠ start) then
        least_cost_path_back fuel parent start p (path ++ [p])
      else mret path
  end.

Definition least_cost_path_run {Num : Type} `{Number Num} (O : IterOrder)
    (fuel : nat) (G : Digraph) (start dest : Z) (cost : Z * Z → Num)
    : outcome (list Z) * list (Z * Z) :=
  let st := {| todo := {[start := num_zero]}; visited := ∅; parent := ∅;
               calls := [] |} in
  if decide (start = dest ∧ start ∉ vertices G) then (Return [], [])
  else
    match least_cost_path_while O fuel G dest cost st with
    | (Return st, log) =>
        if decide (start = dest ∧ start ∈ vertices G) then (Return [start], log)
        else if decide (dest ∈ visited st) then
          (path ← least_cost_path_back fuel (parent st) start dest [dest];
           mret (reverse (path ++ [start])), log)
        else (Return [], log)
    | (Raise e, log) => (Raise e, log)
    | (OutOfFuel, log) => (OutOfFuel, log)
    end.

Definition least_cost_path {Num : Type} `{Number Num} (O : IterOrder)
    (fuel : nat) (G : Digraph) (start dest : Z) (cost : Z * Z → Num)
    : outcome (list Z) :=
  (least_cost_path_run O fuel G start dest cost).1.

Definition least_cost_path_calls {Num : Type} `{Number Num} (O : IterOrder)
    (fuel : nat) (G : Digraph) (start dest : Z) (cost : Z * Z → Num)
    : list (Z * Z) :=
  (least_cost_path_run O fuel G start dest cost).2.

(** The cost of a path: the sum of [cost] over its consecutive pairs. *)
Fixpoint path_cost (cost : Z * Z → Q) (p : list Z) : Q :=
  match p with
  | v :: ((w :: _) as rest) => (cost (v, w) + path_cost cost rest)%Q
  | _ => 0%Q
  end.

(** The unit cost of [dijkstra.py]: the [int] [1]. *)
Definition cost (vtuple : Z * Z) : Q := 1%Q.

(** * Definitions used in the statements and proofs *)

(** The graph that [Digraph(es)] builds. *)
Definition graph_of (es : list (Z * Z)) : Digraph :=
  match Digraph_init es with
  | Return G => G
  | _ => Digraph_empty
  end.

(** [a] is directly followed by [b] somewhere in [l]. *)
Definition adjacent_in (l : list Z) (a b : Z) : Prop :=
  ∃ k, l !! k = Some a ∧ l !! S k = Some b.

(** What the loop of [compress] appends when started at index [i]. *)
Record compress_tail (walk : list Z) (i : nat) (r : list Z) : Prop := {
  tail_sublist : r `sublist_of` drop i walk;
  tail_nodup : NoDup r;
  tail_head : head r = walk !! i;
  tail_last : i < length walk → last r = last walk;
  tail_adjacent : ∀ a b, adjacent_in r a b → adjacent_in walk a b
}.

(** Every logged call of the cost function is on an edge of the graph. *)
Definition calls_on_edges (G : Digraph) (log : list (Z * Z)) : Prop :=
  Forall (λ e, forward G e.1 e.2) log.

(** The sum that [num_edges] computes, on the dictionary alone. *)
Definition sum_sizes (m : gmap Z (gset Z)) : nat :=
  map_fold (λ _ s acc, acc + size s) 0 m.

(** The state of the sampling loop: [E] is the set of the edges drawn so
    far. *)
Record sampling (n m : Z) (G : Digraph) (E : gset (Z * Z)) : Prop := {
  sampling_wf : Digraph_wf G;
  sampling_vertices : vertices G = list_to_set (seqZ 0 n);
  sampling_edges : ∀ a b, forward G a b ↔ (a, b) ∈ E;
  sampling_count : num_edges G = size E;
  sampling_bound : (Z.of_nat (num_edges G) ≤ m)%Z;
  sampling_loops : ∀ a, (a, a) ∉ E
}.

(** The queue holds paths of one length followed by paths one longer. *)
Definition bfs_sorted (queue : list (list Z)) : Prop :=
  ∃ L A B, queue = A ++ B ∧
    Forall (λ q, length q = L) A ∧ Forall (λ q, length q = S L) B.

(** The invariant of the [while queue] loop.  [X] is the set of the
    vertices expanded so far, [lev x] the length of the path with which
    [x] was first expanded. *)
Record bfs_inv (G : Digraph) (source dest : Z) (queue : list (list Z))
    (visited : list Z) (X : gset Z) (lev : Z → nat) : Prop := {
  bfs_walks : ∀ q, q ∈ queue → valid_walk G q ∧ head q = Some source;
  bfs_order : bfs_sorted queue;
  bfs_visited : ∀ v, v ∈ visited → v ∈ X ∨ ∃ q, q ∈ queue ∧ last q = Some v;
  bfs_frontier : ∀ x v, x ∈ X → forward G x v →
    v ∈ X ∨ ∃ q, q ∈ queue ∧ last q = Some v ∧ length q ≤ S (lev x);
  bfs_level : ∀ x r, x ∈ X → path_from_to G source x r → lev x ≤ length r;
  bfs_source : source ∉ X → [source] ∈ queue;
  bfs_dest : dest ∉ X;
  bfs_nodup : NoDup visited;
  bfs_seen : ∀ v, v ∈ visited → v ∈ vertices G
}.

(** How often [v] occurs in [l]. *)
Definition occurrences (v : Z) (l : list Z) : nat :=
  length (filter (λ y, y = v) l).

(** The vertices that are or were at the end of a frontier path occur at
    most once each, the source once more. *)
Definition expansion_budget (source : Z) (queue : list (list Z))
    (visited expanded : list Z) : Prop :=
  NoDup visited ∧
  ∀ v, occurrences v (omap last queue ++ expanded) ≤
       (if decide (v = source) then 1 else 0) +
       (if decide (v ∈ visited) then 1 else 0).

(** The cost function is non-negative on the edges of the graph. *)
Definition nonneg_cost (G : Digraph) (cost : Z * Z → Q) : Prop :=
  ∀ u v, forward G u v → (0 <= cost (u, v))%Q.

(** The invariant of the search of [least_cost_path].  [d v] is the cost
    with which [v] was taken out of [todo], [tp v] the path to [v] along
    the parent pointers.  [pending u v] holds of the edges out of the
    current vertex that the [for] loop has not looked at yet. *)
Record dij_inv (G : Digraph) (cost : Z * Z → Q) (start : Z)
    (pending : Z → Z → Prop) (st : search Q) (d : Z → Q) (tp : Z → list Z)
    : Prop := {
  dij_start : start ∈ visited st;
  dij_verts : visited st ⊆ vertices G;
  dij_tree : ∀ v, v ∈ visited st →
    path_from_to G start v (tp v) ∧ (path_cost cost (tp v) == d v)%Q ∧
    length (tp v) ≤ size (visited st);
  dij_root : tp start = [start];
  dij_parent : ∀ v, v ∈ visited st → v ≠ start →
    ∃ u, parent st !! v = Some u ∧ u ∈ visited st ∧ tp v = tp u ++ [v];
  dij_lower : ∀ v p, v ∈ visited st → path_from_to G start v p →
    (d v <= path_cost cost p)%Q;
  dij_todo : ∀ v t, todo st !! v = Some t →
    (v ∉ visited st) ∧
    ∃ u, parent st !! v = Some u ∧ u ∈ visited st ∧ forward G u v ∧
         (t == d u + cost (u, v))%Q;
  dij_frontier : ∀ u v, u ∈ visited st → forward G u v → v ∉ visited st →
    ¬ pending u v → ∃ t, todo st !! v = Some t ∧ (t <= d u + cost (u, v))%Q
}.

Definition no_pending : Z → Z → Prop := λ _ _, False.

Definition pending_from (cur : Z) (seen : list Z) : Z → Z → Prop :=
  λ a b, a = cur ∧ b ∉ seen.

(** The part of the invariant of [least_cost_path] that does not depend on
    the numbers: the visited vertices form a tree of paths from [start]
    along the parent pointers, and every edge out of a visited vertex
    leads to a visited vertex or to an entry of [todo]. *)
Record reach_inv {Num : Type} (G : Digraph) (start : Z)
    (pending : Z → Z → Prop) (st : search Num) (tp : Z → list Z) : Prop := {
  reach_start : start ∈ visited st;
  reach_verts : visited st ⊆ vertices G;
  reach_tree : ∀ v, v ∈ visited st →
    path_from_to G start v (tp v) ∧ length (tp v) ≤ size (visited st);
  reach_root : tp start = [start];
  reach_parent : ∀ v, v ∈ visited st → v ≠ start →
    ∃ u, parent st !! v = Some u ∧ u ∈ visited st ∧ tp v = tp u ++ [v];
  reach_todo : ∀ v t, todo st !! v = Some t →
    (v ∉ visited st) ∧
    ∃ u, parent st !! v = Some u ∧ u ∈ visited st ∧ forward G u v;
  reach_frontier : ∀ u v, u ∈ visited st → forward G u v → v ∉ visited st →
    ¬ pending u v → is_Some (todo st !! v)
}.



(** The set comprehension of [edges], on the dictionary alone. *)
Definition pairs_of (m : gmap Z (gset Z)) : gset (Z * Z) :=
  map_fold (λ v s acc, set_map (λ w, (v, w)) s ∪ acc) ∅ m.

(** How often the edge [e] was handed to the cost function. *)
Definition call_count (e : Z * Z) (log : list (Z * Z)) : nat :=
  length (filter (λ x, x = e) log).

(** Entries of [todo] are not visited, and the logged calls are on edges
    out of visited vertices, each edge at most twice. *)
Record calls_budget {Num : Type} (st : search Num) : Prop := {
  budget_todo : ∀ v, v ∈ dom (todo st) → v ∉ visited st;
  budget_from : ∀ e, e ∈ calls st → e.1 ∈ visited st;
  budget_count : ∀ e, call_count e (calls st) ≤ 2
}.

(** The edges of [G] that leave a vertex not yet visited. *)
Definition unexplored (G : Digraph) (visited : gset Z) : gset (Z * Z) :=
  filter (λ e, e.1 ∉ visited) (edges G).

(** The invariant of the loop of [spanning_tree], after its first turn. *)
Record dfs_inv (G : Digraph) (start : Z) (todo : list (Z * option (Z * Z)))
    (visited : gset Z) (T : Digraph) : Prop := {
  dfs_start : start ∈ visited;
  dfs_seen : visited ⊆ vertices G;
  dfs_wf : Digraph_wf T;
  dfs_sub : ∀ a b, forward T a b → forward G a b;
  dfs_ends : ∀ a b, forward T a b → a ∈ visited ∧ b ∈ visited ∧ b ≠ start;
  dfs_verts : ∀ v, v ∈ vertices T → ∃ b, forward T v b ∨ forward T b v;
  dfs_indeg : ∀ a a' b, forward T a b → forward T a' b → a = a';
  dfs_count : S (num_edges T) = size visited;
  dfs_tpath : ∀ v, v ∈ visited → v ≠ start → ∃ p, path_from_to T start v p;
  dfs_todo : ∀ n e, (n, e) ∈ todo →
    ∃ cur, e = Some (cur, n) ∧ cur ∈ visited ∧ forward G cur n;
  dfs_frontier : ∀ u n, u ∈ visited → forward G u n →
    n ∈ visited ∨ (n, Some (u, n)) ∈ todo
}.

(** * Examples from the doctests *)

Example doctest_num :
  let G := graph_of [(1, 2); (2, 3); (3, 1)]%Z in
  (num_vertices G, num_edges G) = (3, 3).
Proof. vm_compute. reflexivity. Qed.

Example doctest_is_path :
  let G := graph_of [(1, 2); (2, 3); (2, 4); (1, 5); (2, 5); (4, 5); (5, 2)]%Z in
  is_path G [1; 5; 2; 4; 5]%Z = Return true ∧
  is_path G [1; 5; 4; 2]%Z = Return false ∧
  is_path G [1; 1]%Z = Return false ∧
  is_path G [1]%Z = Return true ∧
  is_path G [] = Return false ∧
  is_path G [0]%Z = Return false ∧
  is_path G [1; 5; 2; 4; 5; 0]%Z = Return false.
Proof. vm_compute. repeat split; reflexivity. Qed.

Example doctest_shortest_path :
  shortest_path canonical_order 20
    (graph_of [(1, 2); (2, 3); (3, 4); (4, 5); (1, 6); (3, 6); (6, 7)]%Z) 1 7
  = Return (Some [1; 6; 7]%Z).
Proof. vm_compute. reflexivity. Qed.

Example doctest_shortest_path_cycle :
  shortest_path canonical_order 20
    (graph_of [(1,2); (2,3); (3,4); (4,2); (4,5); (4,8); (5,6); (6,7); (8,7)]%Z) 1 7
  = Return (Some [1; 2; 3; 4; 8; 7]%Z).
Proof. vm_compute. reflexivity. Qed.

Example doctest_compress :
  compress 10 [1; 3; 0; 1; 6; 4; 8; 6; 2]%Z = Return [1; 6; 2]%Z.
Proof. vm_compute. reflexivity. Qed.

Example doctest_least_cost_path :
  let G := graph_of [(1,2); (2,3); (3,1); (4,3); (3,5); (5,4); (6,7)]%Z in
  least_cost_path canonical_order 10 G 1 5 cost = Return [1; 2; 3; 5]%Z ∧
  least_cost_path canonical_order 10 G 1 7 cost = Return [] ∧
  least_cost_path canonical_order 10 G 1 1 cost = Return [1]%Z ∧
  least_cost_path canonical_order 10 G 1 8 cost = Return [] ∧
  least_cost_path canonical_order 10 G 9 9 cost = Return [].
Proof. vm_compute. repeat split; reflexivity. Qed.

Example doctest_random_graph :
  random_graph 1 1 [] =
  Raise (ValueError "For 1 vertices, you wanted 1 edges, but can only have a maximum of 0").
Proof. vm_compute. reflexivity. Qed.

(** * The graph invariant *)

Lemma forward_add_vertex G v a b :
  forward (add_vertex G v) a b ↔ forward G a b.
Proof.
  unfold add_vertex, forward. case_decide as Hv; [|done]. simpl.
  apply not_elem_of_dom in Hv.
  destruct (decide (a = v)) as [->|Hne].
  - rewrite lookup_insert_eq, Hv. split; intros (s & Hs & Hb); [|done].
    inversion Hs; subst. set_solver.
  - by rewrite lookup_insert_ne.
Qed.

Lemma backward_add_vertex G v a b :
  dom (_tosets G) = dom (_fromsets G) →
  backward (add_vertex G v) b a ↔ backward G b a.
Proof.
  intros Hk. unfold add_vertex, backward. case_decide as Hv; [|done]. simpl.
  rewrite Hk in Hv. apply not_elem_of_dom in Hv.
  destruct (decide (b = v)) as [->|Hne].
  - rewrite lookup_insert_eq, Hv. split; intros (s & Hs & Hb); [|done].
    inversion Hs; subst. set_solver.
  - by rewrite lookup_insert_ne.
Qed.

Lemma vertices_add_vertex G v : vertices (add_vertex G v) = vertices G ∪ {[v]}.
Proof.
  unfold add_vertex, vertices. case_decide as Hv; simpl.
  - rewrite dom_insert_L. set_solver.
  - set_solver.
Qed.

Lemma add_vertex_wf G v : Digraph_wf G → Digraph_wf (add_vertex G v).
Proof.
  intros [Hm Hk]. split.
  - intros a b. rewrite forward_add_vertex, backward_add_vertex; auto.
  - unfold add_vertex. case_decide; [|done]. simpl.
    rewrite !dom_insert_L. by rewrite Hk.
Qed.

Lemma add_edge_spec G e :
  dom (_tosets G) = dom (_fromsets G) →
  ∃ G', add_edge G e = Return G' ∧
    dom (_tosets G') = dom (_tosets G) ∪ {[e.1; e.2]} ∧
    dom (_fromsets G') = dom (_fromsets G) ∪ {[e.1; e.2]} ∧
    (∀ a b, forward G' a b ↔ forward G a b ∨ (a, b) = e) ∧
    (∀ a b, backward G' b a ↔ backward G b a ∨ (a, b) = e).
Proof.
  intros Hk. destruct e as [v w]. unfold add_edge. simpl.
  set (G2 := add_vertex (add_vertex G v) w).
  assert (Hk1 : dom (_tosets (add_vertex G v)) = dom (_fromsets (add_vertex G v))).
  { unfold add_vertex. case_decide; [|done]. simpl. by rewrite !dom_insert_L, Hk. }
  assert (Hk2 : dom (_tosets G2) = dom (_fromsets G2)).
  { unfold G2, add_vertex at 1 3. case_decide; [|done]. simpl.
    by rewrite !dom_insert_L, Hk1. }
  assert (Hd : dom (_tosets G2) = dom (_tosets G) ∪ {[v; w]}).
  { pose proof (vertices_add_vertex (add_vertex G v) w) as H1.
    pose proof (vertices_add_vertex G v) as H2. unfold vertices in *.
    unfold G2. rewrite H1, H2. clear. set_solver. }
  assert (Hf : ∀ a b, forward G2 a b ↔ forward G a b).
  { intros. unfold G2. by rewrite !forward_add_vertex. }
  assert (Hb : ∀ a b, backward G2 b a ↔ backward G b a).
  { intros. unfold G2. rewrite backward_add_vertex by done.
    by rewrite backward_add_vertex. }
  clearbody G2. clear Hk1.
  assert (Hv : v ∈ dom (_tosets G2)) by set_solver.
  assert (Hw : w ∈ dom (_fromsets G2)) by (rewrite <- Hk2; set_solver).
  apply elem_of_dom in Hv as [s Hs]. apply elem_of_dom in Hw as [t Ht].
  unfold getitem. rewrite Hs. simpl. rewrite Ht. simpl.
  eexists. split; [reflexivity|]. simpl. split_and!.
  - rewrite dom_insert_L, Hd. set_solver.
  - rewrite dom_insert_L, <- Hk2, Hd, <- Hk. set_solver.
  - intros a b. rewrite <- Hf. unfold forward. simpl.
    destruct (decide (a = v)) as [->|Hne].
    + rewrite lookup_insert_eq, Hs. split.
      * intros (s' & [= <-] & Hin). apply elem_of_union in Hin as [Hin|Hin].
        -- left. eauto.
        -- right. apply elem_of_singleton in Hin. by subst.
      * intros [(s' & [= <-] & Hin)|[= ->]]; eexists; (split; [done|]); set_solver.
    + rewrite lookup_insert_ne by done. split; [auto|].
      intros [?|[= ? ?]]; [done|]. by subst.
  - intros a b. rewrite <- Hb. unfold backward. simpl.
    destruct (decide (b = w)) as [->|Hne].
    + rewrite lookup_insert_eq, Ht. split.
      * intros (s' & [= <-] & Hin). apply elem_of_union in Hin as [Hin|Hin].
        -- left. eauto.
        -- right. apply elem_of_singleton in Hin. by subst.
      * intros [(s' & [= <-] & Hin)|[= ->]]; eexists; (split; [done|]); set_solver.
    + rewrite lookup_insert_ne by done. split; [auto|].
      intros [?|[= ? ?]]; [done|]. by subst.
Qed.

Lemma add_edge_wf G e :
  Digraph_wf G → ∃ G', add_edge G e = Return G' ∧ Digraph_wf G'.
Proof.
  intros [Hm Hk]. destruct (add_edge_spec G e Hk) as (G' & HG' & Hd1 & Hd2 & Hf & Hb).
  exists G'. split; [done|]. split.
  - intros a b. rewrite Hf, Hb, Hm. done.
  - by rewrite Hd1, Hd2, Hk.
Qed.

Lemma Digraph_empty_wf : Digraph_wf Digraph_empty.
Proof.
  split; [|done]. intros v w. unfold forward, backward. simpl.
  split; intros (s & Hs & _); by rewrite lookup_empty in Hs.
Qed.

Lemma mutate_all_wf ms : ∀ G,
  Digraph_wf G → ∃ G', mutate_all G ms = Return G' ∧ Digraph_wf G'.
Proof.
  induction ms as [|m ms IH]; intros G HG; simpl.
  - by exists G.
  - destruct m as [v|e]; simpl.
    + apply IH. by apply add_vertex_wf.
    + destruct (add_edge_wf G e HG) as (G1 & -> & HG1). simpl. by apply IH.
Qed.

Lemma add_edges_wf es : ∀ G,
  Digraph_wf G → ∃ G', add_edges G es = Return G' ∧ Digraph_wf G'.
Proof.
  induction es as [|e es IH]; intros G HG; simpl.
  - by exists G.
  - destruct (add_edge_wf G e HG) as (G1 & -> & HG1). simpl. by apply IH.
Qed.

Lemma graph_of_wf es : Digraph_wf (graph_of es).
Proof.
  unfold graph_of, Digraph_init.
  destruct (add_edges_wf es Digraph_empty Digraph_empty_wf) as (G & -> & HG).
  done.
Qed.

(** C5.  Whatever sequence of [add_vertex] and [add_edge] calls is applied
    to the empty graph, every call returns, and in the resulting graph [w]
    is in [forward[v]] exactly when [v] is in [backward[w]], and the two
    dictionaries have the same keys. *)
Theorem reachable_graph_invariant (ms : list mutation) :
  ∃ G, mutate_all Digraph_empty ms = Return G ∧
    (∀ v w, forward G v w ↔ backward G w v) ∧
    dom (_tosets G) = dom (_fromsets G).
Proof.
  destruct (mutate_all_wf ms Digraph_empty Digraph_empty_wf) as (G & HG & [Hm Hk]).
  by exists G.
Qed.

(** * is_path *)

Lemma forward_vertex G v w : forward G v w → v ∈ vertices G.
Proof. intros (s & Hs & _). apply elem_of_dom. eauto. Qed.

Lemma wf_forward_target G v w : Digraph_wf G → forward G v w → w ∈ vertices G.
Proof.
  intros [Hm Hk] Hf. apply Hm in Hf as (t & Ht & _).
  unfold vertices. rewrite Hk. apply elem_of_dom. eauto.
Qed.

Lemma is_path_while_true G p :
  is_path_while G p = Return true ↔ consecutive G p.
Proof.
  induction p as [|v [|w rest] IH]; simpl; [done..|].
  unfold adj_to, getitem, forward.
  destruct (_tosets G !! v) as [s|] eqn:Hs; simpl.
  - case_decide as Hw.
    + split; [done|]. intros [(s' & [= <-] & Hin) _]. done.
    + rewrite IH. split; [|tauto].
      intros Hc. split; [eauto|done].
  - split; [done|]. by intros [(s' & ? & _) _].
Qed.

Lemma is_path_walk G p : valid_walk G p → is_path G p = Return true.
Proof.
  intros (Hne & Hall & Hc). destruct p as [|v [|w rest]]; [done| |].
  - simpl. apply Forall_inv in Hall. by rewrite decide_True.
  - unfold is_path. by apply is_path_while_true.
Qed.

Lemma consecutive_vertices G p :
  Digraph_wf G → consecutive G p → 2 ≤ length p → Forall (λ v, v ∈ vertices G) p.
Proof.
  intros Hwf. induction p as [|v [|w rest] IH]; simpl; [lia..|].
  intros [Hf Hc] _. constructor; [by eapply forward_vertex|].
  destruct rest as [|x rest].
  - constructor; [|done]. by eapply wf_forward_target.
  - apply IH; [done|simpl; lia].
Qed.

Lemma walk_is_path G p : Digraph_wf G → is_path G p = Return true → valid_walk G p.
Proof.
  intros Hwf Hp. destruct p as [|v [|w rest]]; [done| |].
  - simpl in Hp. case_decide; [|done]. split; [done|]. split; [|done]. by constructor.
  - apply is_path_while_true in Hp. split; [done|]. split; [|done].
    apply consecutive_vertices; [done..|simpl; lia].
Qed.

(** A path of two or more vertices whose first vertex is not in the graph:
    the first neighbour lookup raises. *)
Lemma is_path_absent_head G v w rest :
  v ∉ vertices G → is_path G (v :: w :: rest) = Raise KeyError.
Proof.
  intros Hv. unfold vertices in Hv. apply not_elem_of_dom in Hv. simpl.
  unfold adj_to, getitem. by rewrite Hv.
Qed.

(** What does hold: with an absent vertex anywhere but at the head of a
    longer sequence, the answer is [False]. *)
Lemma is_path_while_absent_later G p v :
  Digraph_wf G → v ∈ vertices G → (∃ x, x ∈ p ∧ x ∉ vertices G) →
  is_path_while G (v :: p) = Return false.
Proof.
  intros Hwf. revert v. induction p as [|w rest IH]; intros v Hv (x & Hx & Hnx).
  - by apply elem_of_nil in Hx.
  - simpl. unfold adj_to, getitem. pose proof Hv as Hv'. unfold vertices in Hv'.
    apply elem_of_dom in Hv'.
    destruct Hv' as [s Hs]. rewrite Hs. simpl.
    case_decide as Hw; [done|].
    assert (w ∈ vertices G) by (eapply wf_forward_target; [done|]; by exists s).
    apply IH; [done|]. exists x. split; [|done].
    apply elem_of_cons in Hx as [->|]; done.
Qed.

Lemma is_path_absent_later G v p :
  Digraph_wf G → v ∈ vertices G → (∃ x, x ∈ p ∧ x ∉ vertices G) →
  is_path G (v :: p) = Return false.
Proof.
  intros Hwf Hv Hx. destruct p as [|w rest].
  - destruct Hx as (x & Hx & _). by apply elem_of_nil in Hx.
  - by apply (is_path_while_absent_later G (w :: rest) v).
Qed.

Lemma path_from_to_is_path G s d p :
  Digraph_wf G → is_path G p = Return true → head p = Some s → last p = Some d →
  path_from_to G s d p.
Proof. intros Hwf Hp Hh Hl. split_and!; [by apply walk_is_path|done..]. Qed.

(** C4.  The claim fails on the code: on the graph [Digraph([(1, 2)])] the
    call [is_path([0, 1])], whose first vertex [0] is not in the graph,
    does not return [False]; the lookup [adj_to(0)] raises [KeyError]. *)
Theorem is_path_absent_first_raises :
  ∃ G, Digraph_init [(1, 2)]%Z = Return G ∧
    (0%Z ∉ vertices G) ∧ is_path G [0; 1]%Z = Raise KeyError.
Proof.
  eexists. split; [vm_compute; reflexivity|]. split; [|vm_compute; reflexivity].
  vm_compute. intros H. inversion H.
Qed.

(** * compress *)

Lemma compress_lasttime_snoc l v :
  compress_lasttime (l ++ [v]) = <[v := length l]> (compress_lasttime l).
Proof.
  unfold compress_lasttime. rewrite imap_app, foldl_app. simpl.
  by rewrite Nat.add_0_r.
Qed.

Lemma compress_lasttime_spec l x j :
  compress_lasttime l !! x = Some j ↔
  l !! j = Some x ∧ ∀ k, j < k → l !! k ≠ Some x.
Proof.
  revert j. induction l as [|v l IH] using rev_ind; intros j.
  - unfold compress_lasttime. simpl. rewrite lookup_empty. split; [done|].
    by intros [? _].
  - rewrite compress_lasttime_snoc. destruct (decide (x = v)) as [->|Hne].
    + rewrite lookup_insert_eq. split.
      * intros [= <-]. split.
        -- by rewrite lookup_app_r, Nat.sub_diag by lia.
        -- intros k Hk. rewrite lookup_ge_None_2; [done|].
           rewrite length_app. simpl. lia.
      * intros [Hj Hlast]. f_equal.
        apply lookup_lt_Some in Hj as Hlt. rewrite length_app in Hlt. simpl in Hlt.
        destruct (decide (j = length l)) as [|Hjl]; [done|].
        exfalso. apply (Hlast (length l)); [lia|].
        by rewrite lookup_app_r, Nat.sub_diag by lia.
    + rewrite lookup_insert_ne by done. rewrite IH. split.
      * intros [Hj Hlast]. split.
        -- rewrite lookup_app_l; [done|]. by eapply lookup_lt_Some.
        -- intros k Hk Hx. apply lookup_app_Some in Hx as [Hx|[_ Hx]].
           ++ by eapply Hlast.
           ++ apply list_lookup_singleton_Some in Hx as [_ ->]. done.
      * intros [Hj Hlast]. apply lookup_app_Some in Hj as [Hj|[_ Hj]].
        -- split; [done|]. intros k Hk Hx. apply (Hlast k Hk).
           rewrite lookup_app_l; [done|]. by eapply lookup_lt_Some.
        -- apply list_lookup_singleton_Some in Hj as [_ ->]. done.
Qed.

Lemma compress_lasttime_elem l i x :
  l !! i = Some x → ∃ j, compress_lasttime l !! x = Some j ∧ i ≤ j.
Proof.
  revert i. induction l as [|v l IH] using rev_ind; intros i Hi; [done|].
  rewrite compress_lasttime_snoc.
  apply lookup_app_Some in Hi as [Hi|[Hge Hi]].
  - destruct (decide (x = v)) as [->|Hne].
    + rewrite lookup_insert_eq. eexists. split; [done|].
      apply lookup_lt_Some in Hi. lia.
    + rewrite lookup_insert_ne by done. eauto.
  - apply list_lookup_singleton_Some in Hi as [Hi ->].
    rewrite lookup_insert_eq. eexists. split; [done|]. lia.
Qed.

Lemma sublist_drop_le {A} (l : list A) i j : i ≤ j → drop j l `sublist_of` drop i l.
Proof.
  intros Hij. replace j with (i + (j - i)) by lia. rewrite <- drop_drop.
  apply sublist_drop.
Qed.

Lemma elem_of_drop_lookup {A} (l : list A) i x :
  x ∈ drop i l → ∃ k, i ≤ k ∧ l !! k = Some x.
Proof.
  intros Hx. apply list_elem_of_lookup in Hx as [k Hk].
  rewrite lookup_drop in Hk. exists (i + k). split; [lia|done].
Qed.

Lemma compress_while_spec walk n : ∀ i rv fuel,
  length walk - i ≤ n → length walk - i < fuel →
  ∃ r, compress_while fuel walk (compress_lasttime walk) i rv = Return (rv ++ r) ∧
       compress_tail walk i r.
Proof.
  induction n as [n IH] using lt_wf_ind. intros i rv fuel Hn Hfuel.
  destruct fuel as [|fuel]; [lia|]. simpl.
  case_decide as Hi.
  - destruct (lookup_lt_is_Some_2 walk i Hi) as [v Hv].
    unfold list_getitem. rewrite Hv. simpl.
    destruct (compress_lasttime_elem walk i v Hv) as (j & Hj & Hij).
    unfold getitem. rewrite Hj. simpl.
    apply compress_lasttime_spec in Hj as Hj'. destruct Hj' as [Hjv Hlast].
    apply lookup_lt_Some in Hjv as Hjlt.
    destruct (IH (length walk - (j + 1)) ltac:(lia) (j + 1) (rv ++ [v]) fuel
                ltac:(lia) ltac:(lia)) as (r & -> & Hr).
    exists (v :: r). split; [by rewrite <- app_assoc|].
    destruct Hr as [Hsub Hnd Hhd Hlt Hadj]. split.
    + rewrite (drop_S walk v i Hv). apply sublist_skip.
      etrans; [exact Hsub|]. apply sublist_drop_le. lia.
    + constructor; [|done]. intros Hin.
      eapply elem_of_sublist in Hin; [|exact Hsub].
      apply elem_of_drop_lookup in Hin as (k & Hk & Hkv).
      apply (Hlast k); [lia|done].
    + by rewrite Hv.
    + intros _. destruct r as [|x r].
      * simpl in Hhd. symmetry in Hhd. apply lookup_ge_None in Hhd.
        assert (j = length walk - 1) as -> by lia.
        simpl. rewrite last_lookup. rewrite <- Hjv. f_equal. lia.
      * rewrite last_cons_cons. apply Hlt.
        simpl in Hhd. symmetry in Hhd. apply lookup_lt_Some in Hhd. lia.
    + intros a b (k & Ha & Hb). destruct k as [|k].
      * simpl in Ha, Hb. injection Ha as <-.
        exists j. split; [done|]. rewrite <- Hb. rewrite <- head_lookup.
        rewrite Hhd. f_equal. lia.
      * apply Hadj. by exists k.
  - exists []. split; [by rewrite app_nil_r|]. split.
    + apply sublist_nil_l.
    + constructor.
    + simpl. symmetry. apply lookup_ge_None. lia.
    + lia.
    + intros a b (k & Ha & _). done.
Qed.

Lemma compress_Return walk fuel :
  length walk < fuel →
  ∃ r, compress fuel walk = Return r ∧ compress_tail walk 0 r.
Proof.
  intros Hfuel. unfold compress.
  destruct (compress_while_spec walk (length walk) 0 [] fuel) as (r & Hr & Ht);
    [lia..|]. exists r. done.
Qed.

(** On a list without repetition the loop walks index by index. *)
Lemma compress_while_nodup walk : NoDup walk → ∀ n i rv fuel,
  length walk - i ≤ n → length walk - i < fuel →
  compress_while fuel walk (compress_lasttime walk) i rv = Return (rv ++ drop i walk).
Proof.
  intros Hnd. induction n as [|n IH]; intros i rv fuel Hn Hfuel;
    (destruct fuel as [|fuel]; [lia|]); simpl; case_decide as Hi; try lia.
  - rewrite drop_ge by lia. by rewrite app_nil_r.
  - destruct (lookup_lt_is_Some_2 walk i Hi) as [v Hv].
    unfold list_getitem. rewrite Hv. simpl.
    destruct (compress_lasttime_elem walk i v Hv) as (j & Hj & Hij).
    unfold getitem. rewrite Hj. simpl.
    apply compress_lasttime_spec in Hj as [Hjv _].
    assert (i = j) as <- by (eapply NoDup_lookup; eauto).
    rewrite IH by lia. rewrite (drop_S walk v i Hv), <- app_assoc.
    replace (i + 1) with (S i) by lia. done.
  - rewrite drop_ge by lia. by rewrite app_nil_r.
Qed.

Lemma compress_nodup walk fuel :
  NoDup walk → length walk < fuel → compress fuel walk = Return walk.
Proof.
  intros Hnd Hfuel. unfold compress.
  rewrite (compress_while_nodup walk Hnd (length walk)) by lia. done.
Qed.

(** C6.  [compress(w)] returns a list without repeated vertices, not longer
    than [w], and [compress] of that list is the list again. *)
Theorem compress_distinct_shorter_idempotent (w : list Z) (fuel : nat) :
  length w < fuel →
  ∃ r, compress fuel w = Return r ∧
       NoDup r ∧
       length r ≤ length w ∧
       compress fuel r = Return r.
Proof.
  intros Hfuel. destruct (compress_Return w fuel Hfuel) as (r & Hr & Ht).
  destruct Ht as [Hsub Hnd _ _ _]. rewrite drop_0 in Hsub.
  apply sublist_length in Hsub as Hlen.
  exists r. split_and!; [done..|]. apply compress_nodup; [done|lia].
Qed.

Lemma compress_distinct_shorter_idempotent_witness :
  (length [1; 3; 0; 1; 6; 4; 8; 6; 2]%Z < 10) ∧
  ∃ r, compress 10 [1; 3; 0; 1; 6; 4; 8; 6; 2]%Z = Return r ∧
       NoDup r ∧ length r ≤ length [1; 3; 0; 1; 6; 4; 8; 6; 2]%Z ∧
       compress 10 r = Return r.
Proof.
  split; [simpl; lia|].
  apply (compress_distinct_shorter_idempotent [1; 3; 0; 1; 6; 4; 8; 6; 2]%Z 10).
  simpl; lia.
Defined.

Lemma consecutive_adjacent G p :
  consecutive G p ↔ ∀ a b, adjacent_in p a b → forward G a b.
Proof.
  induction p as [|v [|w rest] IH].
  - split; [|done]. intros _ a b (k & Ha & _). done.
  - split; [|done]. intros _ a b (k & Ha & Hb). done.
  - change (consecutive G (v :: w :: rest))
      with (forward G v w ∧ consecutive G (w :: rest)).
    rewrite IH. split.
    + intros [Hf Hc] a b (k & Ha & Hb). destruct k as [|k].
      * simpl in Ha, Hb. by simplify_eq.
      * apply Hc. by exists k.
    + intros H. split.
      * apply H. by exists 0.
      * intros a b (k & Ha & Hb). apply H. by exists (S k).
Qed.

(** C7.  On a non-empty walk [w] of [G], [compress(w)] returns a
    subsequence of [w] that [is_path] accepts, with the first and the last
    vertex of [w]. *)
Theorem compress_walk_is_path (G : Digraph) (w : list Z) (fuel : nat) :
  valid_walk G w → length w < fuel →
  ∃ r, compress fuel w = Return r ∧
       r `sublist_of` w ∧
       is_path G r = Return true ∧
       head r = head w ∧ last r = last w.
Proof.
  intros (Hne & Hall & Hc) Hfuel.
  destruct (compress_Return w fuel Hfuel) as (r & Hr & Ht).
  destruct Ht as [Hsub Hnd Hhd Hlt Hadj]. rewrite drop_0 in Hsub.
  assert (0 < length w) by (destruct w; [done|simpl; lia]).
  exists r. split_and!; [done|done| |by rewrite Hhd, head_lookup|by apply Hlt].
  apply is_path_walk. split_and!.
  - intros ->. rewrite <- head_lookup in Hhd. destruct w; done.
  - rewrite Forall_forall in Hall |- *. intros x Hx. apply Hall.
    by eapply elem_of_sublist.
  - apply consecutive_adjacent. intros a b Hab.
    by eapply consecutive_adjacent; [exact Hc|apply Hadj].
Qed.

Lemma compress_walk_is_path_witness :
  ∃ r, compress 10 [1; 2; 3; 1; 2; 3; 5]%Z = Return r ∧
       r `sublist_of` [1; 2; 3; 1; 2; 3; 5]%Z ∧
       is_path (graph_of [(1,2); (2,3); (3,1); (4,3); (3,5); (5,4)]%Z) r
         = Return true ∧
       head r = Some 1%Z ∧ last r = Some 5%Z.
Proof.
  apply (compress_walk_is_path
           (graph_of [(1,2); (2,3); (3,1); (4,3); (3,5); (5,4)]%Z)
           [1; 2; 3; 1; 2; 3; 5]%Z 10).
  - apply walk_is_path; [apply graph_of_wf|]. vm_compute. reflexivity.
  - simpl. lia.
Defined.

(** * The iteration order; calls of the cost function *)

Lemma set_iter_elem O (s : gset Z) x : x ∈ set_iter O s ↔ x ∈ s.
Proof. rewrite (set_iter_perm O s). apply elem_of_elements. Qed.

Lemma set_iter_NoDup O (s : gset Z) : NoDup (set_iter O s).
Proof. rewrite (set_iter_perm O s). apply NoDup_elements. Qed.

Lemma dict_iter_elem {A} O (m : gmap Z A) k x :
  (k, x) ∈ dict_iter O m ↔ m !! k = Some x.
Proof. rewrite (dict_iter_perm O m). apply elem_of_map_to_list. Qed.

Lemma dict_iter_singleton {A} O k (x : A) : dict_iter O {[k := x]} = [(k, x)].
Proof.
  pose proof (dict_iter_perm O {[k := x]}) as H.
  rewrite map_to_list_singleton in H. by apply Permutation_singleton_r in H.
Qed.

Lemma least_cost_path_for_calls {Num : Type} `{Number Num} G (cost : Z * Z → Num) cur c adjs st n :
  _tosets G !! cur = Some adjs → n ∈ adjs →
  calls_on_edges G (calls st) →
  calls_on_edges G (calls (least_cost_path_for cost cur c st n)).
Proof.
  intros Hadj Hn Hst. assert (forward G cur n) by (by exists adjs).
  unfold least_cost_path_for, calls_on_edges in *. case_decide; [done|].
  destruct (todo st !! n); [destruct (num_lt _ _)|]; simpl;
    apply Forall_app; (split; [done|]); repeat constructor; done.
Qed.

Lemma least_cost_path_fold_calls {Num : Type} `{Number Num} G (cost : Z * Z → Num) cur c adjs l : ∀ st,
  _tosets G !! cur = Some adjs → (∀ n, n ∈ l → n ∈ adjs) →
  calls_on_edges G (calls st) →
  calls_on_edges G (calls (foldl (least_cost_path_for cost cur c) st l)).
Proof.
  induction l as [|n l IH]; intros st Hadj Hl Hst; simpl; [done|].
  apply IH; [done|set_solver|].
  eapply least_cost_path_for_calls; [done|set_solver|done].
Qed.

Lemma least_cost_path_while_calls {Num : Type} `{Number Num} O G dest (cost : Z * Z → Num) fuel : ∀ st,
  calls_on_edges G (calls st) →
  calls_on_edges G (least_cost_path_while O fuel G dest cost st).2 ∧
  ∀ st', (least_cost_path_while O fuel G dest cost st).1 = Return st' →
         (least_cost_path_while O fuel G dest cost st).2 = calls st'.
Proof.
  induction fuel as [|fuel IH]; intros st Hst; simpl; [done|].
  case_decide; [|split; [done|by intros ? [= <-]]].
  destruct (min_item _) as [[cur c]| |]; [|done..].
  unfold adj_to, getitem. destruct (_tosets G !! cur) as [adjs|] eqn:Hadj; [|done].
  apply IH. eapply least_cost_path_fold_calls; [done| |done].
  intros n. by rewrite set_iter_elem.
Qed.

(** C10.  Whatever the graph, the endpoints and the cost function, and
    however the call ends, every pair [(v, w)] that [least_cost_path] hands
    to the cost function is an edge: [w] is in [adj_to(v)]. *)
Theorem least_cost_path_cost_domain {Num : Type} `{Number Num} (O : IterOrder)
    (fuel : nat) (G : Digraph) (start dest : Z) (c : Z * Z → Num) :
  ∀ v w, (v, w) ∈ least_cost_path_calls O fuel G start dest c →
         ∃ adjs, adj_to G v = Return adjs ∧ w ∈ adjs.
Proof.
  assert (calls_on_edges G (least_cost_path_calls O fuel G start dest c)) as Hall.
  { unfold least_cost_path_calls, least_cost_path_run.
    case_decide; [constructor|].
    set (st0 := {| todo := _ |}).
    destruct (least_cost_path_while_calls O G dest c fuel st0) as [Hlog _];
      [constructor|].
    destruct (least_cost_path_while O fuel G dest c st0) as [[st| |] log]; simpl in *;
      [|done..].
    repeat case_decide; done. }
  intros v w Hvw. unfold calls_on_edges in Hall. rewrite Forall_forall in Hall.
  destruct (Hall _ Hvw) as (adjs & Hadj & Hw). simpl in *.
  exists adjs. unfold adj_to, getitem. by rewrite Hadj.
Qed.

Lemma least_cost_path_cost_domain_witness :
  (1, 2)%Z ∈ least_cost_path_calls canonical_order 10
     (graph_of [(1,2); (2,3); (3,1); (4,3); (3,5); (5,4)]%Z) 1 5 cost ∧
  ∃ adjs, adj_to (graph_of [(1,2); (2,3); (3,1); (4,3); (3,5); (5,4)]%Z) 1
          = Return adjs ∧ 2%Z ∈ adjs.
Proof.
  assert ((1, 2)%Z ∈ least_cost_path_calls canonical_order 10
     (graph_of [(1,2); (2,3); (3,1); (4,3); (3,5); (5,4)]%Z) 1 5 cost) as H.
  { vm_compute. constructor. }
  split; [exact H|].
  exact (least_cost_path_cost_domain canonical_order 10 _ 1 5 cost 1 2 H).
Defined.

(** * random_graph *)

Lemma sum_sizes_insert_fresh m v s :
  m !! v = None → sum_sizes (<[v := s]> m) = sum_sizes m + size s.
Proof.
  intros Hv. unfold sum_sizes.
  rewrite map_fold_insert_L; [done| |done]. intros. lia.
Qed.

Lemma sum_sizes_insert m v s s' :
  m !! v = Some s → sum_sizes (<[v := s']> m) + size s = sum_sizes m + size s'.
Proof.
  intros Hv. rewrite <- (insert_delete_id m v s Hv) at 2.
  rewrite <- (insert_delete_eq m).
  rewrite !sum_sizes_insert_fresh by apply lookup_delete_eq. lia.
Qed.

Lemma num_edges_add_vertex G v : num_edges (add_vertex G v) = num_edges G.
Proof.
  unfold add_vertex, num_edges. case_decide as Hv; [|done]. simpl.
  apply not_elem_of_dom in Hv.
  pose proof (sum_sizes_insert_fresh (_tosets G) v ∅ Hv) as H.
  unfold sum_sizes in H. rewrite H, size_empty. lia.
Qed.

Lemma num_edges_add_edge G G' v w :
  add_edge G (v, w) = Return G' →
  (forward G v w → num_edges G' = num_edges G) ∧
  (¬ forward G v w → num_edges G' = S (num_edges G)).
Proof.
  unfold add_edge. simpl. set (G2 := add_vertex (add_vertex G v) w).
  assert (num_edges G2 = num_edges G) as HG2.
  { unfold G2. by rewrite !num_edges_add_vertex. }
  assert (∀ a b, forward G2 a b ↔ forward G a b) as Hf.
  { intros. unfold G2. by rewrite !forward_add_vertex. }
  clearbody G2.
  unfold getitem. destruct (_tosets G2 !! v) as [s|] eqn:Hs; [|done]. simpl.
  destruct (_fromsets G2 !! w) as [t|] eqn:Ht; [|done]. simpl.
  intros [= <-]. rewrite <- HG2. unfold num_edges at 1 3. simpl.
  pose proof (sum_sizes_insert (_tosets G2) v s (s ∪ {[w]}) Hs) as Hsum.
  fold (sum_sizes (<[v:=s ∪ {[w]}]> (_tosets G2))).
  fold (sum_sizes (_tosets G2)) in Hsum |- *.
  unfold num_edges. fold (sum_sizes (_tosets G2)).
  split; intros Hvw.
  - apply Hf in Hvw as (s' & Hs' & Hw). simplify_eq.
    assert (s ∪ {[w]} = s) as Heq by (clear -Hw; set_solver).
    rewrite Heq in Hsum |- *. lia.
  - assert (w ∉ s) as Hw. { intros Hw. apply Hvw, Hf. by exists s. }
    rewrite size_union in Hsum by (clear -Hw; set_solver).
    rewrite size_singleton in Hsum. lia.
Qed.

(** The graph right after [for v in range(n): G.add_vertex(v)]. *)
Lemma add_vertices_spec l : ∀ G,
  Digraph_wf G →
  let G' := foldl add_vertex G l in
  Digraph_wf G' ∧ vertices G' = vertices G ∪ list_to_set l ∧
  num_edges G' = num_edges G ∧ (∀ a b, forward G' a b ↔ forward G a b).
Proof.
  induction l as [|v l IH]; intros G HG; simpl.
  - split_and!; [done|set_solver|done..].
  - destruct (IH (add_vertex G v) (add_vertex_wf G v HG)) as (H1 & H2 & H3 & H4).
    split_and!; [done| | |].
    + rewrite H2, vertices_add_vertex. set_solver.
    + by rewrite H3, num_edges_add_vertex.
    + intros a b. by rewrite H4, forward_add_vertex.
Qed.

Lemma vertices_add_edge G G' e :
  Digraph_wf G → add_edge G e = Return G' →
  Digraph_wf G' ∧ vertices G' = vertices G ∪ {[e.1; e.2]} ∧
  ∀ a b, forward G' a b ↔ forward G a b ∨ (a, b) = e.
Proof.
  intros HG He. destruct (add_edge_wf G e HG) as (G1 & HG1 & Hwf1).
  destruct (add_edge_spec G e (wf_keys G HG)) as (G2 & HG2 & Hd & _ & Hf & _).
  rewrite He in HG1, HG2. injection HG1 as <-. injection HG2 as <-.
  split_and!; [done|exact Hd|done].
Qed.

Lemma mutate_all_app ms1 : ∀ G ms2,
  mutate_all G (ms1 ++ ms2) = G' ← mutate_all G ms1; mutate_all G' ms2.
Proof.
  induction ms1 as [|m ms1 IH]; intros G ms2; simpl; [done|].
  destruct (mutate G m) as [G1| |]; simpl; [apply IH|done..].
Qed.

Lemma mutate_all_add_vertices l : ∀ G,
  mutate_all G (AddVertex <$> l) = Return (foldl add_vertex G l).
Proof. induction l as [|v l IH]; intros G; simpl; [done|apply IH]. Qed.

Lemma random_graph_while_spec n m samples : ∀ G E log G0,
  (0 ≤ n)%Z →
  (m ≤ n * (n - 1))%Z →
  Forall (sample_ok n) samples →
  sampling n m G E →
  (m ≤ Z.of_nat (size (E ∪ list_to_set samples)))%Z →
  mutate_all G0 log = Return G →
  ∃ G' E', (random_graph_while n m G samples log).1 = Return G' ∧
    sampling n m G' E' ∧ Z.of_nat (num_edges G') = m ∧
    mutate_all G0 (random_graph_while n m G samples log).2 = Return G'.
Proof.
  induction samples as [|[v w] samples IH]; intros G E log G0 Hn Hm Hok HG Hsize Hlog.
  - exists G, E. simpl in *.
    replace (E ∪ ∅) with E in Hsize by set_solver.
    pose proof (sampling_count _ _ _ _ HG) as Hc.
    pose proof (sampling_bound _ _ _ _ HG) as Hb.
    rewrite decide_False by lia. split_and!; [done..|lia|done].
  - simpl. case_decide as Hlt.
    2:{ exists G, E. split_and!; [done..| |done]. destruct HG. lia. }
    rewrite decide_False by nia.
    destruct HG as [Hwf Hv He Hc Hb Hl].
    destruct (add_edge_wf G (v, w) Hwf) as (G1 & HG1 & Hwf1). rewrite HG1.
    apply Forall_cons in Hok as [(Hv1 & Hw1 & Hvw) Hok]. simpl in *.
    destruct (vertices_add_edge G G1 (v, w) Hwf HG1) as (_ & Hd1 & Hf1).
    destruct (num_edges_add_edge G G1 v w HG1) as [Hold Hnew].
    apply (IH G1 ({[(v, w)]} ∪ E)); [done|done|done| | |].
    + split.
      * done.
      * rewrite Hd1, Hv. simpl.
        assert (v ∈ (list_to_set (seqZ 0 n) : gset Z)).
        { apply elem_of_list_to_set, elem_of_seqZ. lia. }
        assert (w ∈ (list_to_set (seqZ 0 n) : gset Z)).
        { apply elem_of_list_to_set, elem_of_seqZ. lia. }
        set_solver.
      * intros a b. rewrite Hf1, He. set_solver.
      * destruct (decide ((v, w) ∈ E)) as [Hin|Hout].
        -- rewrite Hold by (by apply He). rewrite Hc. f_equal. set_solver.
        -- rewrite Hnew by (by rewrite He). rewrite Hc.
           rewrite size_union by set_solver. by rewrite size_singleton.
      * destruct (decide ((v, w) ∈ E)) as [Hin|Hout].
        -- rewrite Hold by (by apply He). lia.
        -- rewrite Hnew by (by rewrite He). lia.
      * intros a Ha. apply elem_of_union in Ha as [Ha|Ha]; [|by eapply Hl].
        apply elem_of_singleton in Ha. by simplify_eq.
    + replace ({[(v, w)]} ∪ E ∪ list_to_set samples)
        with (E ∪ list_to_set ((v, w) :: samples)) by set_solver. done.
    + rewrite mutate_all_app, Hlog. simpl. by rewrite HG1.
Qed.

(** The claim of C8 as it stands fails on the code: [random_graph(1, 1)]
    raises [ValueError], but by then [G.add_vertex(0)] has run on the new
    graph. *)
Lemma random_graph_mutates_before_raise :
  (1 > 1 * (1 - 1))%Z ∧
  random_graph 1 1 [] =
    Raise (ValueError
      "For 1 vertices, you wanted 1 edges, but can only have a maximum of 0") ∧
  random_graph_mutations 1 1 [] = [AddVertex 0%Z] ∧
  random_graph_mutations 1 1 [] ≠ [].
Proof. split_and!; [lia|vm_compute; reflexivity..|vm_compute; discriminate]. Qed.

(** C8, amended.  For natural numbers [n] and [m]: when [m ≤ n*(n-1)], and
    the random source delivers pairs of distinct vertices of [range(n)]
    with at least [m] different pairs among them, [random_graph(n, m)]
    returns a graph whose vertices are [0 .. n-1], with [n] vertices, [m]
    edges and no self-loop, which is the graph that the logged calls build;
    when [m > n*(n-1)] it raises [ValueError] with the message built from
    [n], [m] and [n*(n-1)], after the [n] calls of [add_vertex] on the new
    graph and before any call of [add_edge]. *)
Theorem random_graph_counts (n m : nat) (samples : list (Z * Z)) :
  (m ≤ n * (n - 1) →
   Forall (sample_ok (Z.of_nat n)) samples →
   m ≤ size (list_to_set samples : gset (Z * Z)) →
   ∃ G, random_graph (Z.of_nat n) (Z.of_nat m) samples = Return G ∧
        vertices G = list_to_set (seqZ 0 (Z.of_nat n)) ∧
        num_vertices G = n ∧
        num_edges G = m ∧
        (∀ v, ¬ forward G v v) ∧
        mutate_all Digraph_empty
          (random_graph_mutations (Z.of_nat n) (Z.of_nat m) samples) = Return G) ∧
  (m > n * (n - 1) →
   random_graph (Z.of_nat n) (Z.of_nat m) samples =
     Raise (ValueError
       (random_graph_message (Z.of_nat n) (Z.of_nat m) (Z.of_nat (n * (n - 1))))) ∧
   random_graph_mutations (Z.of_nat n) (Z.of_nat m) samples =
     AddVertex <$> seqZ 0 (Z.of_nat n)).
Proof.
  assert ((Z.of_nat n * (Z.of_nat n - 1))%Z = Z.of_nat (n * (n - 1))) as Hmax by nia.
  split.
  - intros Hm Hok Hsize.
    unfold random_graph, random_graph_mutations, random_graph_run.
    rewrite decide_False by lia.
    destruct (add_vertices_spec (seqZ 0 (Z.of_nat n)) Digraph_empty Digraph_empty_wf)
      as (Hwf & Hv & Hne & Hf).
    set (G0 := foldl add_vertex Digraph_empty (seqZ 0 (Z.of_nat n))) in *.
    assert (vertices G0 = list_to_set (seqZ 0 (Z.of_nat n))) as Hv0.
    { rewrite Hv. unfold vertices. simpl. rewrite dom_empty_L. set_solver. }
    assert (∀ a b, ¬ forward G0 a b) as Hf0.
    { intros a b. rewrite Hf. intros (s & Hs & _). simpl in Hs.
      by rewrite lookup_empty in Hs. }
    assert (num_edges G0 = 0) as Hn0.
    { rewrite Hne. unfold num_edges. simpl. by rewrite map_fold_empty. }
    destruct (random_graph_while_spec (Z.of_nat n) (Z.of_nat m) samples G0 ∅
                (AddVertex <$> seqZ 0 (Z.of_nat n)) Digraph_empty)
      as (G & E & HG & HS & Hcount & Hreplay).
    + lia.
    + lia.
    + done.
    + split; [done|done| |by rewrite Hn0, size_empty|lia|set_solver].
      intros a b. split; [by intros ?%Hf0|set_solver].
    + replace (∅ ∪ list_to_set samples) with (list_to_set samples : gset (Z * Z))
        by set_solver. lia.
    + apply mutate_all_add_vertices.
    + exists G. destruct HS as [_ HvG HeG _ _ HlG].
      split_and!; [done|done| |lia| |done].
      * unfold num_vertices. rewrite <- size_dom. unfold vertices in HvG.
        rewrite HvG, size_list_to_set by apply NoDup_seqZ.
        rewrite length_seqZ. lia.
      * intros v. rewrite HeG. apply HlG.
  - intros Hm. unfold random_graph, random_graph_mutations, random_graph_run.
    rewrite decide_True by lia. by rewrite Hmax.
Qed.

Lemma random_graph_counts_witness :
  (∃ G, random_graph (Z.of_nat 3) (Z.of_nat 2) [(0, 1); (0, 1); (2, 0)]%Z = Return G ∧
        vertices G = list_to_set (seqZ 0 (Z.of_nat 3)) ∧
        num_vertices G = 3 ∧ num_edges G = 2 ∧ (∀ v, ¬ forward G v v) ∧
        mutate_all Digraph_empty
          (random_graph_mutations (Z.of_nat 3) (Z.of_nat 2)
             [(0, 1); (0, 1); (2, 0)]%Z) = Return G) ∧
  (random_graph (Z.of_nat 1) (Z.of_nat 1) [] =
     Raise (ValueError
       (random_graph_message (Z.of_nat 1) (Z.of_nat 1) (Z.of_nat (1 * (1 - 1))))) ∧
   random_graph_mutations (Z.of_nat 1) (Z.of_nat 1) [] =
     AddVertex <$> seqZ 0 (Z.of_nat 1)).
Proof.
  pose proof (random_graph_counts 3 2 [(0, 1); (0, 1); (2, 0)]%Z) as [H3 _].
  pose proof (random_graph_counts 1 1 []) as [_ H1].
  split.
  - apply H3.
    + simpl. lia.
    + repeat constructor; simpl; lia.
    + vm_compute. lia.
  - apply H1. simpl. lia.
Defined.

(** * shortest_path *)

(** ** Walks, extended at the end *)

Lemma consecutive_snoc G p v :
  consecutive G (p ++ [v]) ↔
  consecutive G p ∧ ∀ u, last p = Some u → forward G u v.
Proof.
  induction p as [|a [|b rest] IH].
  - simpl. split; [|done]. intros _. split; [done|]. by intros u.
  - simpl. split.
    + intros [Hf _]. split; [done|]. by intros u [= <-].
    + intros [_ Hf]. split; [|done]. by apply Hf.
  - change (consecutive G ((a :: b :: rest) ++ [v]))
      with (forward G a b ∧ consecutive G ((b :: rest) ++ [v])).
    change (consecutive G (a :: b :: rest))
      with (forward G a b ∧ consecutive G (b :: rest)).
    rewrite IH, last_cons_cons. tauto.
Qed.

Lemma valid_walk_snoc G p u v :
  Digraph_wf G → valid_walk G p → last p = Some u → forward G u v →
  valid_walk G (p ++ [v]).
Proof.
  intros Hwf (Hne & Hall & Hc) Hu Hf. split_and!.
  - by destruct p.
  - apply Forall_app. split; [done|]. constructor; [|done].
    by eapply wf_forward_target.
  - apply consecutive_snoc. split; [done|]. intros u' Hu'. by simplify_eq.
Qed.

Lemma valid_walk_snoc_inv G p v :
  valid_walk G (p ++ [v]) → p ≠ [] →
  valid_walk G p ∧ ∃ u, last p = Some u ∧ forward G u v.
Proof.
  intros (_ & Hall & Hc) Hne. apply Forall_app in Hall as [Hall _].
  apply consecutive_snoc in Hc as [Hc Hf]. split; [done|].
  destruct (last p) as [u|] eqn:Hu.
  - exists u. split; [done|]. by apply Hf.
  - by apply last_None in Hu.
Qed.

Lemma valid_walk_singleton G v : v ∈ vertices G → valid_walk G [v].
Proof. intros Hv. split_and!; [done| |done]. by constructor. Qed.

Lemma valid_walk_last G p v : valid_walk G p → last p = Some v → v ∈ vertices G.
Proof.
  intros (_ & Hall & _) Hl. rewrite Forall_forall in Hall. apply Hall.
  apply last_Some in Hl as [l' ->]. set_solver.
Qed.

(** ** The frontier of [shortest_path] *)

Lemma bfs_sorted_head p rest q :
  bfs_sorted (p :: rest) → q ∈ p :: rest →
  length p ≤ length q ∧ length q ≤ S (length p).
Proof.
  intros (L & A & B & Heq & HA & HB) Hq.
  rewrite Forall_forall in HA, HB.
  assert (length q = L ∨ length q = S L) as Hlq.
  { rewrite Heq in Hq. apply elem_of_app in Hq as [?|?]; auto. }
  destruct A as [|a A]; simpl in Heq.
  - assert (length p = S L) by (apply HB; rewrite <- Heq; left).
    assert (length q = S L) by (apply HB; by rewrite <- Heq). lia.
  - injection Heq as -> ->. assert (length a = L) by (apply HA; left). lia.
Qed.

Lemma bfs_sorted_step p rest news :
  bfs_sorted (p :: rest) → Forall (λ q, length q = S (length p)) news →
  bfs_sorted (rest ++ news).
Proof.
  intros (L & A & B & Heq & HA & HB) Hnews. destruct A as [|a A]; simpl in Heq.
  - subst B. apply Forall_cons in HB as [Hp HB]. rewrite Hp in Hnews.
    exists (S L), rest, news. done.
  - injection Heq as -> ->. apply Forall_cons in HA as [Hp HA]. rewrite Hp in Hnews.
    exists L, A, (B ++ news). split; [by rewrite app_assoc|].
    split; [done|]. by apply Forall_app.
Qed.

Lemma filter_ext_elem {A} (P Q : A → Prop) `{∀ x, Decision (P x)}
    `{∀ x, Decision (Q x)} (l : list A) :
  (∀ x, x ∈ l → P x ↔ Q x) → filter P l = filter Q l.
Proof.
  induction l as [|a l IH]; intros HPQ; [done|].
  assert (filter P l = filter Q l) as Hl by (apply IH; intros; apply HPQ; by right).
  destruct (decide (P a)) as [HP|HP].
  - rewrite !filter_cons_True; [by rewrite Hl|by apply HPQ; [left|]|done].
  - rewrite !filter_cons_False; [done| |done]. intros HQ. apply HP, HPQ; [left|done].
Qed.

(** The effect of the whole [for adj in G.adj_to(vertex)] loop. *)
Lemma shortest_path_for_fold path l : ∀ queue visited,
  NoDup l →
  foldl (shortest_path_for path) (queue, visited) l =
  (queue ++ ((λ a, path ++ [a]) <$> filter (λ a, a ∉ visited) l),
   visited ++ filter (λ a, a ∉ visited) l).
Proof.
  induction l as [|a l IH]; intros queue visited Hnd; simpl.
  - by rewrite !app_nil_r.
  - apply NoDup_cons in Hnd as [Ha Hnd]. unfold shortest_path_for at 2. simpl.
    case_decide as Hin.
    + rewrite IH by done. rewrite filter_cons_False by tauto. done.
    + rewrite IH by done. rewrite filter_cons_True by done.
      assert (filter (λ a0, a0 ∉ visited ++ [a]) l = filter (λ a0, a0 ∉ visited) l) as ->.
      { apply filter_ext_elem. intros x Hx. set_solver. }
      simpl. by rewrite <- !app_assoc.
Qed.

(** Every walk from the source to a vertex that is not expanded yet is at
    least as long as some path of the queue. *)
Lemma bfs_inv_lower G source dest queue visited X lev :
  bfs_inv G source dest queue visited X lev →
  ∀ r v, path_from_to G source v r → v ∉ X →
  ∃ q, q ∈ queue ∧ length q ≤ length r.
Proof.
  intros Hinv. induction r as [|v' r IH] using rev_ind; intros v (Hw & Hhd & Hl) Hv.
  - done.
  - rewrite last_snoc in Hl. injection Hl as ->.
    destruct (decide (r = [])) as [->|Hne].
    + simpl in Hhd. injection Hhd as ->.
      exists [source]. split; [by apply (bfs_source _ _ _ _ _ _ _ Hinv)|done].
    + apply valid_walk_snoc_inv in Hw as (Hw & u & Hu & Hf); [|done].
      assert (path_from_to G source u r) as Hr.
      { split_and!; [done| |done]. destruct r; [done|]. by simpl in *. }
      rewrite length_app. simpl.
      destruct (decide (u ∈ X)) as [HuX|HuX].
      * destruct (bfs_frontier _ _ _ _ _ _ _ Hinv u v HuX Hf)
          as [?|(q & Hq & _ & Hlen)]; [done|].
        pose proof (bfs_level _ _ _ _ _ _ _ Hinv u r HuX Hr). exists q. split; [done|lia].
      * destruct (IH u Hr HuX) as (q & Hq & Hlen). exists q. split; [done|lia].
Qed.

Lemma list_getitem_last {A} (l : list A) :
  list_getitem l (length l - 1) =
  match last l with Some x => Return x | None => Raise IndexError end.
Proof.
  unfold list_getitem. rewrite last_lookup.
  by replace (length l - 1) with (Init.Nat.pred (length l)) by lia.
Qed.

Lemma NoDup_subset_length (l : list Z) (V : gset Z) :
  NoDup l → (∀ v, v ∈ l → v ∈ V) → length l ≤ size V.
Proof.
  intros Hnd Hsub. rewrite <- (size_list_to_set (C:=gset Z) l Hnd).
  apply subseteq_size. intros x Hx. apply Hsub. set_solver.
Qed.

Lemma bfs_inv_step O G source dest p rest visited X lev x adjs :
  Digraph_wf G →
  bfs_inv G source dest (p :: rest) visited X lev →
  last p = Some x → x ≠ dest → _tosets G !! x = Some adjs →
  let news := filter (λ a, a ∉ visited) (set_iter O adjs) in
  bfs_inv G source dest (rest ++ ((λ a, p ++ [a]) <$> news)) (visited ++ news)
    (X ∪ {[x]}) (λ y, if decide (y = x ∧ x ∉ X) then length p else lev y).
Proof.
  intros Hwf Hinv Hx Hxd Hadj news.
  assert (∀ a, a ∈ news ↔ a ∈ adjs ∧ a ∉ visited) as Hnews.
  { intros a. unfold news. rewrite list_elem_of_filter, set_iter_elem. tauto. }
  assert (∀ a, a ∈ adjs → forward G x a) as Hfwd by (intros; by exists adjs).
  destruct (bfs_walks _ _ _ _ _ _ _ Hinv p) as [Hpw Hph]; [left|].
  split.
  - intros q Hq. apply elem_of_app in Hq as [Hq|Hq].
    + apply (bfs_walks _ _ _ _ _ _ _ Hinv). by right.
    + apply list_elem_of_fmap in Hq as (a & -> & Ha). apply Hnews in Ha as [Ha _].
      split; [by eapply valid_walk_snoc; eauto|]. destruct p; [done|]. done.
  - eapply bfs_sorted_step; [exact (bfs_order _ _ _ _ _ _ _ Hinv)|].
    rewrite Forall_fmap. apply Forall_forall. intros a _. simpl.
    rewrite length_app. simpl. lia.
  - intros v Hv. apply elem_of_app in Hv as [Hv|Hv].
    + destruct (bfs_visited _ _ _ _ _ _ _ Hinv v Hv) as [?|(q & Hq & Hl)];
        [left; set_solver|].
      apply elem_of_cons in Hq as [->|Hq].
      * left. simplify_eq. set_solver.
      * right. exists q. split; [set_solver|done].
    + right. exists (p ++ [v]). split; [|by rewrite last_snoc].
      apply elem_of_app. right. apply list_elem_of_fmap. by exists v.
  - intros y v Hy Hf.
    assert (∀ q n, q ∈ p :: rest → last q = Some v → length q ≤ n →
      v ∈ X ∪ {[x]} ∨ ∃ q, q ∈ rest ++ ((λ a, p ++ [a]) <$> news) ∧
        last q = Some v ∧ length q ≤ n) as Hold.
    { intros q n Hq Hl Hlen. apply elem_of_cons in Hq as [->|Hq].
      - left. simplify_eq. set_solver.
      - right. exists q. split; [set_solver|done]. }
    destruct (decide (y ∈ X)) as [HyX|HyX].
    + rewrite decide_False by (by intros [-> ?]).
      destruct (bfs_frontier _ _ _ _ _ _ _ Hinv y v HyX Hf) as [?|(q & Hq & Hl & Hlen)];
        [left; set_solver|]. by eapply Hold.
    + assert (y = x) as -> by set_solver. rewrite decide_True by done.
      destruct Hf as (s & Hs & Hv). simplify_eq.
      destruct (decide (v ∈ visited)) as [Hvis|Hvis].
      * destruct (bfs_visited _ _ _ _ _ _ _ Hinv v Hvis) as [?|(q & Hq & Hl)];
          [left; set_solver|].
        eapply Hold; [done..|].
        by eapply bfs_sorted_head; [exact (bfs_order _ _ _ _ _ _ _ Hinv)|].
      * right. exists (p ++ [v]). split_and!.
        -- apply elem_of_app. right. apply list_elem_of_fmap. exists v.
           split; [done|]. by apply Hnews.
        -- by rewrite last_snoc.
        -- rewrite length_app. simpl. lia.
  - intros y r Hy Hr. case_decide as Hc.
    + destruct Hc as [-> HxX].
      destruct (bfs_inv_lower _ _ _ _ _ _ _ Hinv r x Hr HxX) as (q & Hq & Hlen).
      pose proof (bfs_sorted_head p rest q (bfs_order _ _ _ _ _ _ _ Hinv) Hq). lia.
    + apply (bfs_level _ _ _ _ _ _ _ Hinv); [|done].
      apply elem_of_union in Hy as [?|Hy]; [done|].
      apply elem_of_singleton in Hy as ->. apply dec_stable. tauto.
  - intros Hs. assert ([source] ∈ p :: rest) as Hq.
    { apply (bfs_source _ _ _ _ _ _ _ Hinv). set_solver. }
    apply elem_of_cons in Hq as [<-|Hq]; [|set_solver].
    simpl in Hx. set_solver.
  - pose proof (bfs_dest _ _ _ _ _ _ _ Hinv). set_solver.
  - apply NoDup_app. split_and!.
    + exact (bfs_nodup _ _ _ _ _ _ _ Hinv).
    + intros v Hv Hv'. apply Hnews in Hv'. tauto.
    + apply NoDup_filter, set_iter_NoDup.
  - intros v Hv. apply elem_of_app in Hv as [Hv|Hv].
    + by apply (bfs_seen _ _ _ _ _ _ _ Hinv).
    + apply Hnews in Hv as [Hv _]. eapply wf_forward_target; eauto.
Qed.

Lemma shortest_path_while_spec O G source dest :
  Digraph_wf G → ∀ fuel queue visited expanded lev,
  bfs_inv G source dest queue visited (list_to_set expanded) lev →
  length queue + 2 * (size (vertices G) - length visited) < fuel →
  let res := (shortest_path_while O fuel G dest queue visited expanded).1 in
  (∃ p, res = Return (Some p) ∧ path_from_to G source dest p ∧
        ∀ r, path_from_to G source dest r → length p ≤ length r) ∨
  (res = Return None ∧ ∀ r, ¬ path_from_to G source dest r).
Proof.
  intros Hwf. induction fuel as [|fuel IH]; intros queue visited expanded lev Hinv Hfuel;
    [lia|].
  simpl. destruct queue as [|p rest].
  - right. split; [done|]. intros r Hr.
    destruct (bfs_inv_lower _ _ _ _ _ _ _ Hinv r dest Hr (bfs_dest _ _ _ _ _ _ _ Hinv))
      as (q & Hq & _). by apply elem_of_nil in Hq.
  - destruct (bfs_walks _ _ _ _ _ _ _ Hinv p) as [Hpw Hph]; [left|].
    rewrite list_getitem_last. destruct (last p) as [x|] eqn:Hx.
    2:{ apply last_None in Hx. by destruct Hpw as [? _]. }
    case_decide as Hxd.
    + left. exists p. subst x. split_and!; [done|by split_and!|].
      intros r Hr.
      destruct (bfs_inv_lower _ _ _ _ _ _ _ Hinv r dest Hr (bfs_dest _ _ _ _ _ _ _ Hinv))
        as (q & Hq & Hlen).
      pose proof (bfs_sorted_head p rest q (bfs_order _ _ _ _ _ _ _ Hinv) Hq). lia.
    + pose proof (valid_walk_last G p x Hpw Hx) as HxV. unfold vertices in HxV.
      apply elem_of_dom in HxV as [adjs Hadj].
      unfold adj_to, getitem. rewrite Hadj.
      rewrite shortest_path_for_fold by apply set_iter_NoDup. simpl.
      pose proof (bfs_inv_step O G source dest p rest visited _ lev x adjs
                    Hwf Hinv Hx Hxd Hadj) as Hinv'. simpl in Hinv'.
      set (news := filter (λ a, a ∉ visited) (set_iter O adjs)) in *.
      eapply IH.
      * replace (list_to_set (expanded ++ [x]) : gset Z)
          with (list_to_set expanded ∪ {[x]} : gset Z) by set_solver.
        exact Hinv'.
      * pose proof (NoDup_subset_length (visited ++ news) (vertices G)
          (bfs_nodup _ _ _ _ _ _ _ Hinv') (bfs_seen _ _ _ _ _ _ _ Hinv')) as Hle.
        rewrite !length_app, length_fmap in *. simpl in Hfuel. lia.
Qed.

(** C2.  On a graph built by the class, with enough fuel for the loop:
    when [source] and [dest] are vertices and a path between them exists,
    [shortest_path] returns a sequence that [is_path] accepts, from
    [source] to [dest], and no path from [source] to [dest] has fewer
    edges; for a member [s], [shortest_path(G, s, s)] is [[s]]; when an
    endpoint is not a vertex or no path exists, the result is [None]. *)
Theorem shortest_path_correct (O : IterOrder) (G : Digraph) (source dest : Z)
    (fuel : nat) :
  Digraph_wf G → 2 * size (vertices G) + 1 < fuel →
  (source ∈ vertices G → dest ∈ vertices G →
   (∃ q, path_from_to G source dest q) →
   ∃ p, shortest_path O fuel G source dest = Return (Some p) ∧
        is_path G p = Return true ∧
        head p = Some source ∧ last p = Some dest ∧
        ∀ q, path_from_to G source dest q → length p - 1 ≤ length q - 1) ∧
  (source ∈ vertices G → source = dest →
   shortest_path O fuel G source dest = Return (Some [source])) ∧
  (source ∉ vertices G ∨ dest ∉ vertices G ∨
   ¬ (∃ q, path_from_to G source dest q) →
   shortest_path O fuel G source dest = Return None).
Proof.
  intros Hwf Hfuel.
  assert (source ∈ vertices G → dest ∈ vertices G →
    (∃ p, shortest_path O fuel G source dest = Return (Some p) ∧
       path_from_to G source dest p ∧
       ∀ r, path_from_to G source dest r → length p ≤ length r) ∨
    (shortest_path O fuel G source dest = Return None ∧
       ∀ r, ¬ path_from_to G source dest r)) as Hmain.
  { intros Hs Hd. unfold shortest_path, shortest_path_run.
    rewrite decide_False by tauto.
    apply (shortest_path_while_spec O G source dest Hwf fuel _ _ _ (λ _, 0)).
    - split; try set_solver.
      + intros q Hq. apply list_elem_of_singleton in Hq as ->.
        split; [by apply valid_walk_singleton|done].
      + exists 1, [[source]], []. split_and!; [done|by repeat constructor|constructor].
      + constructor.
    - simpl. lia. }
  split_and!.
  - intros Hs Hd [q Hq]. destruct (Hmain Hs Hd) as [(p & Hp & Hpath & Hmin)|[_ Hno]].
    + exists p. destruct Hpath as (Hw & Hh & Hl).
      split_and!; [done|by apply is_path_walk|done|done|].
      intros r Hr. specialize (Hmin r Hr). lia.
    + by destruct (Hno q).
  - intros Hs <-. destruct (Hmain Hs Hs) as [(p & Hp & Hpath & Hmin)|[_ Hno]].
    + rewrite Hp. do 2 f_equal.
      assert (path_from_to G source source [source]) as Hself.
      { split_and!; [by apply valid_walk_singleton|done..]. }
      specialize (Hmin _ Hself). simpl in Hmin.
      destruct Hpath as ((Hne & _) & Hh & _).
      destruct p as [|a [|b p]]; [done| |simpl in Hmin; lia].
      simpl in Hh. by injection Hh as ->.
    + destruct (Hno [source]). split_and!; [by apply valid_walk_singleton|done..].
  - intros Hcase. destruct (decide (source ∈ vertices G ∧ dest ∈ vertices G)) as [[Hs Hd]|Hn].
    + destruct Hcase as [?|[?|Hno]]; [done..|].
      destruct (Hmain Hs Hd) as [(p & Hp & Hpath & Hmin)|[Hres _]]; [|done].
      destruct Hno. by exists p.
    + unfold shortest_path, shortest_path_run. rewrite decide_True; [done|].
      apply not_and_l in Hn. tauto.
Qed.

Lemma shortest_path_correct_witness :
  ∃ p, shortest_path canonical_order 20
         (graph_of [(1, 2); (2, 3); (3, 4); (4, 5); (1, 6); (3, 6); (6, 7)]%Z) 1 7
       = Return (Some p) ∧
       is_path (graph_of [(1, 2); (2, 3); (3, 4); (4, 5); (1, 6); (3, 6); (6, 7)]%Z) p
       = Return true ∧
       head p = Some 1%Z ∧ last p = Some 7%Z ∧
       ∀ q, path_from_to
              (graph_of [(1, 2); (2, 3); (3, 4); (4, 5); (1, 6); (3, 6); (6, 7)]%Z)
              1 7 q →
            length p - 1 ≤ length q - 1.
Proof.
  pose (G := graph_of [(1, 2); (2, 3); (3, 4); (4, 5); (1, 6); (3, 6); (6, 7)]%Z).
  assert (Digraph_wf G) as Hwf by apply graph_of_wf.
  assert (2 * size (vertices G) + 1 < 20) as Hfuel by (vm_compute; lia).
  destruct (shortest_path_correct canonical_order G 1 7 20 Hwf Hfuel) as [Hfound _].
  apply Hfound.
  - apply (bool_decide_unpack _). vm_compute. exact I.
  - apply (bool_decide_unpack _). vm_compute. exact I.
  - exists [1; 2; 3; 6; 7]%Z.
    apply path_from_to_is_path; [done|vm_compute; reflexivity|done..].
Defined.

(** ** How often a vertex is expanded *)

Lemma occurrences_app v l1 l2 :
  occurrences v (l1 ++ l2) = occurrences v l1 + occurrences v l2.
Proof. unfold occurrences. by rewrite filter_app, length_app. Qed.

Lemma occurrences_NoDup v l :
  NoDup l → occurrences v l = if decide (v ∈ l) then 1 else 0.
Proof.
  unfold occurrences. induction 1 as [|x l Hx Hnd IH]; [done|].
  destruct (decide (x = v)) as [->|Hne].
  - rewrite filter_cons_True by done. simpl. rewrite IH.
    rewrite decide_False by done. rewrite decide_True; [done|left].
  - rewrite filter_cons_False by done. rewrite IH.
    destruct (decide (v ∈ l)).
    + rewrite decide_True; [done|by right].
    + rewrite decide_False; [done|]. intros [->|?]%elem_of_cons; done.
Qed.

Lemma omap_last_snoc (p : list Z) (news : list Z) :
  omap last ((λ a, p ++ [a]) <$> news) = news.
Proof.
  induction news as [|a news IH]; [done|].
  rewrite fmap_cons. cbn [omap list_omap]. rewrite last_snoc. f_equal. exact IH.
Qed.

Lemma shortest_path_while_budget O G source dest fuel :
  ∀ queue visited expanded,
  expansion_budget source queue visited expanded →
  ∀ v, occurrences v (shortest_path_while O fuel G dest queue visited expanded).2 ≤
       if decide (v = source) then 2 else 1.
Proof.
  assert (∀ queue visited expanded v,
    expansion_budget source queue visited expanded →
    occurrences v expanded ≤ if decide (v = source) then 2 else 1) as Hexit.
  { intros queue visited expanded v [_ Hb]. specialize (Hb v).
    rewrite occurrences_app in Hb. repeat case_decide; lia. }
  induction fuel as [|fuel IH]; intros queue visited expanded Hb v; simpl;
    [by eapply Hexit|].
  destruct queue as [|p rest]; [by eapply Hexit|].
  rewrite list_getitem_last. destruct (last p) as [x|] eqn:Hx; [|by eapply Hexit].
  case_decide; [by eapply Hexit|].
  unfold adj_to, getitem. destruct (_tosets G !! x) as [adjs|]; [|by eapply Hexit].
  rewrite shortest_path_for_fold by apply set_iter_NoDup. simpl.
  set (news := filter (λ a, a ∉ visited) (set_iter O adjs)).
  apply IH. destruct Hb as [Hnd Hb].
  assert (NoDup news) as Hnews by apply NoDup_filter, set_iter_NoDup.
  assert (∀ a, a ∈ news → a ∉ visited) as Hfresh.
  { intros a Ha. by apply list_elem_of_filter in Ha as [? _]. }
  split.
  - apply NoDup_app. split_and!; [done| |done]. intros a Ha Ha'. by apply (Hfresh a).
  - intros u. specialize (Hb u).
    assert (omap last (p :: rest) = [x] ++ omap last rest) as Hq.
    { cbn [omap list_omap]. by rewrite Hx. }
    rewrite Hq in Hb. rewrite !occurrences_app in Hb.
    rewrite omap_app, omap_last_snoc. rewrite !occurrences_app.
    rewrite (occurrences_NoDup u news Hnews).
    destruct (decide (u ∈ news)) as [Hu|Hu].
    + rewrite (decide_False (P := u ∈ visited)) in Hb by (by apply Hfresh).
      rewrite (decide_True (P := u ∈ visited ++ news)) by set_solver. lia.
    + destruct (decide (u ∈ visited)) as [Hv|Hv].
      * rewrite (decide_True (P := u ∈ visited ++ news)) by set_solver. lia.
      * rewrite (decide_False (P := u ∈ visited ++ news)) by set_solver. lia.
Qed.

(** What does hold of the expansions: a vertex other than the source is
    expanded at most once, the source at most twice. *)
Lemma shortest_path_expanded_bound O fuel G source dest v :
  occurrences v (shortest_path_expanded O fuel G source dest) ≤
  if decide (v = source) then 2 else 1.
Proof.
  unfold shortest_path_expanded, shortest_path_run.
  case_decide; [simpl; unfold occurrences; case_decide; simpl; lia|].
  apply shortest_path_while_budget. split; [constructor|].
  intros u. simpl. unfold occurrences.
  destruct (decide (source = u)) as [->|Hne].
  - rewrite filter_cons_True by done. rewrite decide_True by done. simpl. lia.
  - rewrite filter_cons_False by done. simpl. lia.
Qed.

(** C9.  The claim fails on the code: on [Digraph([(1,2), (2,1), (3,1)])]
    the call [shortest_path(G, 1, 3)] expands the source [1] twice, because
    the source is not in [visited] when it is met again as a neighbour of
    [2]. *)
Theorem shortest_path_source_expanded_twice :
  ∃ G, Digraph_init [(1, 2); (2, 1); (3, 1)]%Z = Return G ∧
    shortest_path canonical_order 10 G 1 3 = Return None ∧
    shortest_path_expanded canonical_order 10 G 1 3 = [1; 2; 1]%Z.
Proof.
  eexists. split; [vm_compute; reflexivity|]. split; vm_compute; reflexivity.
Qed.

(** * least_cost_path *)

(** ** Costs of walks *)

Lemma path_cost_snoc cost p u v :
  last p = Some u →
  (path_cost cost (p ++ [v]) == path_cost cost p + cost (u, v))%Q.
Proof.
  induction p as [|a [|b rest] IH]; intros Hu.
  - done.
  - simpl in *. injection Hu as ->. lra.
  - rewrite last_cons_cons in Hu. specialize (IH Hu).
    change (path_cost cost ((a :: b :: rest) ++ [v]))
      with (cost (a, b) + path_cost cost ((b :: rest) ++ [v]))%Q.
    change (path_cost cost (a :: b :: rest))
      with (cost (a, b) + path_cost cost (b :: rest))%Q.
    lra.
Qed.

Lemma path_cost_nonneg G cost p :
  nonneg_cost G cost → consecutive G p → (0 <= path_cost cost p)%Q.
Proof.
  intros Hc. induction p as [|a [|b rest] IH]; intros Hp; simpl; [lra..|].
  destruct Hp as [Hab Hp]. specialize (IH Hp). specialize (Hc a b Hab).
  simpl in IH. lra.
Qed.

(** ** The minimum of the [todo] items *)

(** Whatever [<] does, [min] returns one of the items. *)
Lemma min_item_fold_elem {Num : Type} `{Number Num} (l : list (Z * Num)) : ∀ x,
  foldl (λ best y : Z * Num, if num_lt y.2 best.2 then y else best) x l ∈ x :: l.
Proof.
  induction l as [|a l IH]; intros x; cbn [foldl]; [left|].
  destruct (num_lt a.2 x.2).
  - specialize (IH a). apply elem_of_cons in IH as [->|IH]; [right; left|by do 2 right].
  - specialize (IH x). apply elem_of_cons in IH as [->|IH]; [left|by do 2 right].
Qed.

Lemma min_item_elem {Num : Type} `{Number Num} O (m : gmap Z Num) :
  m ≠ ∅ →
  ∃ cur c, min_item (dict_iter O m) = Return (cur, c) ∧ m !! cur = Some c.
Proof.
  intros Hne. destruct (dict_iter O m) as [|x l] eqn:Hitems.
  - exfalso. apply Hne. apply map_to_list_empty_iff.
    pose proof (dict_iter_perm O m) as Hp. rewrite Hitems in Hp.
    by apply Permutation_nil_l in Hp.
  - simpl. pose proof (min_item_fold_elem l x) as Hin.
    destruct (foldl _ x l) as [cur c]. exists cur, c. split; [done|].
    apply (dict_iter_elem O). by rewrite Hitems.
Qed.

Lemma min_item_fold l : ∀ x,
  let best := foldl (λ best y : Z * Q, if num_lt y.2 best.2 then y else best) x l in
  best ∈ x :: l ∧ ∀ y, y ∈ x :: l → (best.2 <= y.2)%Q.
Proof.
  induction l as [|a l IH]; intros x; cbn [foldl].
  - split; [left|]. intros y Hy. apply list_elem_of_singleton in Hy as ->. lra.
  - change (num_lt a.2 x.2) with (if Qlt_le_dec a.2 x.2 then true else false).
    destruct (Qlt_le_dec a.2 x.2) as [Hlt|Hle].
    + destruct (IH a) as [Hin Hmin]. split.
      * apply elem_of_cons in Hin as [->|Hin]; [right; left|by do 2 right].
      * intros y Hy. pose proof (Hmin a ltac:(left)) as Ha.
        apply elem_of_cons in Hy as [->|Hy]; [lra|]. by apply Hmin.
    + destruct (IH x) as [Hin Hmin]. split.
      * apply elem_of_cons in Hin as [->|Hin]; [left|by do 2 right].
      * intros y Hy. pose proof (Hmin x ltac:(left)) as Hx.
        apply elem_of_cons in Hy as [->|Hy]; [done|].
        apply elem_of_cons in Hy as [->|Hy]; [lra|]. apply Hmin. by right.
Qed.

Lemma min_item_spec O (m : gmap Z Q) :
  m ≠ ∅ →
  ∃ cur c, min_item (dict_iter O m) = Return (cur, c) ∧ m !! cur = Some c ∧
    ∀ v t, m !! v = Some t → (c <= t)%Q.
Proof.
  intros Hne. destruct (dict_iter O m) as [|x l] eqn:Hitems.
  - exfalso. apply Hne. apply map_to_list_empty_iff.
    pose proof (dict_iter_perm O m) as Hp. rewrite Hitems in Hp.
    by apply Permutation_nil_l in Hp.
  - simpl. destruct (min_item_fold l x) as [Hin Hmin].
    set (best := foldl _ x l) in *. destruct best as [cur c] eqn:Hbest.
    exists cur, c. split; [done|]. split.
    + apply (dict_iter_elem O). by rewrite Hitems.
    + intros v t Hv. apply (dict_iter_elem O) in Hv. rewrite Hitems in Hv.
      apply (Hmin (v, t) Hv).
Qed.

(** ** The search, whatever the numbers *)

Lemma reach_inv_weaken {Num : Type} G start (pending pending' : Z → Z → Prop)
    (st : search Num) tp :
  (∀ u v, forward G u v → pending u v → pending' u v) →
  reach_inv G start pending st tp → reach_inv G start pending' st tp.
Proof.
  intros Hsub [H1 H2 H3 H4 H5 H6 H7]. split; try done.
  intros u v Hu Hf Hv Hp. apply (H7 u v); [done..|]. intros Hp'. apply Hp. by apply Hsub.
Qed.

(** Taking an entry out of [todo]. *)
Lemma reach_inv_pop {Num : Type} G start (st : search Num) tp cur c :
  Digraph_wf G →
  reach_inv G start no_pending st tp →
  todo st !! cur = Some c →
  ∃ tp',
    reach_inv G start (pending_from cur [])
      {| todo := delete cur (todo st); visited := visited st ∪ {[cur]};
         parent := parent st; calls := calls st |} tp'.
Proof.
  intros Hwf Hinv Hcur.
  destruct (reach_todo _ _ _ _ _ Hinv cur c Hcur) as (HcurX & u & Hpu & HuX & Hf).
  assert (u ≠ cur) as Huc by (by intros ->).
  assert (cur ≠ start) as Hcs.
  { intros ->. apply HcurX, (reach_start _ _ _ _ _ Hinv). }
  destruct (reach_tree _ _ _ _ _ Hinv u HuX) as ((Hwu & Hhu & Hlu) & Hlenu).
  exists (λ v, if decide (v = cur) then tp u ++ [cur] else tp v).
  assert (size (visited st ∪ {[cur]}) = S (size (visited st))) as Hsize.
  { rewrite size_union by set_solver. rewrite size_singleton. lia. }
  split; simpl.
  - pose proof (reach_start _ _ _ _ _ Hinv). set_solver.
  - pose proof (reach_verts _ _ _ _ _ Hinv).
    pose proof (wf_forward_target G u cur Hwf Hf). set_solver.
  - intros v Hv. rewrite Hsize. case_decide as Hvc.
    + subst v. split.
      * split_and!; [by eapply valid_walk_snoc|by destruct (tp u)|by rewrite last_snoc].
      * rewrite length_app. simpl. lia.
    + destruct (reach_tree _ _ _ _ _ Hinv v) as (? & ?); [set_solver|].
      split; [done|lia].
  - rewrite decide_False by done. apply (reach_root _ _ _ _ _ Hinv).
  - intros v Hv Hvs. case_decide as Hvc.
    + subst v. exists u. rewrite decide_False by done. split_and!; [done|set_solver|done].
    + destruct (reach_parent _ _ _ _ _ Hinv v) as (u' & Hpu' & Hu' & Htp);
        [set_solver|done|].
      exists u'. rewrite decide_False by (by intros ->).
      split_and!; [done|set_solver|done].
  - intros v t Hv. apply lookup_delete_Some in Hv as [Hvc Hv].
    destruct (reach_todo _ _ _ _ _ Hinv v t Hv) as (HvX & u' & Hpu' & Hu' & Hf').
    split; [set_solver|]. exists u'. split_and!; [done|set_solver|done].
  - intros u' v Hu' Hf' Hv Hpend.
    assert (u' ≠ cur) as Hne. { intros ->. apply Hpend. split; [done|]. apply not_elem_of_nil. }
    destruct (reach_frontier _ _ _ _ _ Hinv u' v) as (t & Ht);
      [set_solver|done|set_solver|by intros []|].
    exists t. rewrite lookup_delete_ne; [done|]. set_solver.
Qed.

(** What one pass of the [for] body does, whatever the comparison says. *)
Lemma least_cost_path_for_shape {Num : Type} `{Number Num} (cost : Z * Z → Num)
    cur c st n :
  let st' := least_cost_path_for cost cur c st n in
  visited st' = visited st ∧
  ((todo st' = todo st ∧ parent st' = parent st ∧
    (n ∈ visited st ∨ is_Some (todo st !! n))) ∨
   (∃ x, todo st' = <[n := x]> (todo st) ∧
    parent st' = <[n := cur]> (parent st) ∧ n ∉ visited st)).
Proof.
  cbv zeta. unfold least_cost_path_for.
  case_decide as Hn; [split; [done|]; left; by split_and!; [..|left]|].
  destruct (todo st !! n) as [t|] eqn:Ht; [destruct (num_lt _ _)|];
    simpl; (split; [done|]).
  - right. eexists. by split_and!.
  - left. split_and!; [done..|]. right. by exists t.
  - right. eexists. by split_and!.
Qed.

Lemma reach_inv_relax {Num : Type} `{Number Num} G (cost : Z * Z → Num) start
    st tp cur c seen n :
  reach_inv G start (pending_from cur seen) st tp →
  cur ∈ visited st → forward G cur n →
  reach_inv G start (pending_from cur (n :: seen))
    (least_cost_path_for cost cur c st n) tp.
Proof.
  intros Hinv HcurX Hf.
  destruct (least_cost_path_for_shape cost cur c st n) as [Hvis Hcases].
  set (st' := least_cost_path_for cost cur c st n) in *.
  destruct Hinv as [H1 H2 H3 H4 H5 H6 H7].
  destruct Hcases as [(Htodo & Hparent & Hskip)|(x & Htodo & Hparent & HnX)];
    split; rewrite ?Hvis, ?Htodo, ?Hparent; try done.
  - intros u v Hu Huv Hv Hpend.
    destruct (decide (u = cur ∧ v = n)) as [[-> ->]|Hne].
    + by destruct Hskip.
    + apply (H7 u v); [done..|]. intros [-> Hvs]. apply Hpend. split; [done|].
      apply not_elem_of_cons. split; [|done]. intros ->. tauto.
  - intros v Hv Hvs. destruct (H5 v Hv Hvs) as (u & Hpu & Hu & Htp).
    exists u. split_and!; [|done..]. rewrite lookup_insert_ne; [done|]. by intros ->.
  - intros v t Hv. destruct (decide (v = n)) as [->|Hvn].
    + split; [done|]. exists cur. rewrite lookup_insert_eq. done.
    + rewrite lookup_insert_ne in Hv by done.
      destruct (H6 v t Hv) as (HvX & u & Hpu & Hu & Huv).
      split; [done|]. exists u. rewrite lookup_insert_ne by done. done.
  - intros u v Hu Huv Hv Hpend. destruct (decide (v = n)) as [->|Hvn].
    + rewrite lookup_insert_eq. by eexists.
    + rewrite lookup_insert_ne by done. apply (H7 u v); [done..|].
      intros [-> Hvs]. apply Hpend. split; [done|].
      apply not_elem_of_cons. done.
Qed.

Lemma reach_inv_for {Num : Type} `{Number Num} G (cost : Z * Z → Num) start tp
    cur c ns : ∀ st seen,
  reach_inv G start (pending_from cur seen) st tp →
  cur ∈ visited st → (∀ n, n ∈ ns → forward G cur n) →
  let st' := foldl (least_cost_path_for cost cur c) st ns in
  visited st' = visited st ∧
  reach_inv G start (pending_from cur (ns ++ seen)) st' tp.
Proof.
  induction ns as [|n ns IH]; intros st seen Hinv Hcur Hns; simpl; [done|].
  destruct (least_cost_path_for_shape cost cur c st n) as [Hvis _].
  destruct (IH (least_cost_path_for cost cur c st n) (n :: seen)) as [Hvis' Hinv'].
  - apply reach_inv_relax; [done..|]. apply Hns. left.
  - by rewrite Hvis.
  - intros m Hm. apply Hns. by right.
  - split; [by rewrite Hvis', Hvis|].
    eapply reach_inv_weaken; [|exact Hinv']. intros u v _ [-> Hv]. split; [done|].
    set_solver.
Qed.

(** One turn of the [while] loop, from the state after the [pop]. *)
Lemma reach_inv_turn {Num : Type} `{Number Num} O G (cost : Z * Z → Num) start
    tp cur c adjs st :
  reach_inv G start (pending_from cur []) st tp →
  cur ∈ visited st → _tosets G !! cur = Some adjs →
  let st' := foldl (least_cost_path_for cost cur c) st (set_iter O adjs) in
  visited st' = visited st ∧ reach_inv G start no_pending st' tp.
Proof.
  intros Hinv Hcur Hadj.
  destruct (reach_inv_for G cost start tp cur c (set_iter O adjs) st []) as [Hvis Hinv'];
    [done..| |].
  - intros n Hn. apply set_iter_elem in Hn. by exists adjs.
  - split; [done|]. eapply reach_inv_weaken; [|exact Hinv'].
    intros u v (s & Hs & Hv) [-> Hnot]. simplify_eq.
    apply Hnot. apply elem_of_app. left. by apply set_iter_elem.
Qed.

(** The loop ends within [|V|] turns, whatever [min] picks. *)
Lemma least_cost_path_while_reach {Num : Type} `{Number Num} O G
    (cost : Z * Z → Num) start dest :
  Digraph_wf G → ∀ fuel st tp,
  reach_inv G start no_pending st tp →
  size (vertices G) - size (visited st) < fuel →
  ∃ st' tp',
    (least_cost_path_while O fuel G dest cost st).1 = Return st' ∧
    reach_inv G start no_pending st' tp' ∧
    (todo st' = ∅ ∨ dest ∈ visited st').
Proof.
  intros Hwf. induction fuel as [|fuel IH]; intros st tp Hinv Hfuel; [lia|].
  simpl. case_decide as Hgo.
  2:{ exists st, tp. split_and!; [done..|].
      apply not_and_l in Hgo as [Hgo|Hgo]; [left|right]; by apply dec_stable. }
  destruct Hgo as [Hne Hdest].
  destruct (min_item_elem O (todo st) Hne) as (cur & c & -> & Hcur).
  destruct (reach_todo _ _ _ _ _ Hinv cur c Hcur) as (HcurX & u & _ & _ & Hf).
  pose proof (wf_forward_target G u cur Hwf Hf) as HcurV.
  pose proof HcurV as HcurV'. unfold vertices in HcurV'.
  apply elem_of_dom in HcurV' as [adjs Hadj].
  unfold adj_to, getitem. rewrite Hadj.
  destruct (reach_inv_pop G start st tp cur c Hwf Hinv Hcur) as (tp' & Hpop).
  set (st1 := {| todo := delete cur (todo st) |}) in *.
  destruct (reach_inv_turn O G cost start tp' cur c adjs st1 Hpop) as [Hvis Hturn].
  { simpl. set_solver. }
  { done. }
  eapply IH; [exact Hturn|]. rewrite Hvis. simpl.
  pose proof (reach_verts _ _ _ _ _ Hinv) as Hsub.
  assert (visited st ∪ {[cur]} ⊆ vertices G) as Hsub' by set_solver.
  apply subseteq_size in Hsub'. rewrite size_union in Hsub' |- * by set_solver.
  rewrite size_singleton in *. lia.
Qed.

(** Walking the parent pointers back from a visited vertex collects the
    inner vertices of its tree path, last one first. *)
Lemma least_cost_path_back_reach {Num : Type} G start pending (st : search Num) tp :
  reach_inv G start pending st tp →
  ∀ fuel v acc, v ∈ visited st → v ≠ start → length (tp v) ≤ S fuel →
  ∃ mid, tp v = start :: mid ++ [v] ∧
    least_cost_path_back fuel (parent st) start v acc = Return (acc ++ reverse mid).
Proof.
  intros Hinv. induction fuel as [|fuel IH]; intros v acc Hv Hvs Hlen;
    destruct (reach_parent _ _ _ _ _ Hinv v Hv Hvs) as (u & Hpu & Hu & Htp);
    destruct (reach_tree _ _ _ _ _ Hinv u Hu) as (((Hne & _) & _) & _).
  - rewrite Htp, length_app in Hlen. simpl in Hlen.
    destruct (tp u); [done|]. simpl in Hlen. lia.
  - simpl. unfold getitem. rewrite Hpu. simpl. case_decide as Hus.
    + destruct (IH u (acc ++ [u]) Hu Hus) as (mid & Hmid & ->).
      { rewrite Htp, length_app in Hlen. simpl in Hlen. lia. }
      exists (mid ++ [u]). split.
      * rewrite Htp, Hmid. simpl. by rewrite <- !app_assoc.
      * by rewrite reverse_app, reverse_singleton, <- app_assoc.
    + subst u. exists []. split.
      * by rewrite Htp, (reach_root _ _ _ _ _ Hinv).
      * by rewrite app_nil_r.
Qed.

(** The state after the first turn of the loop, which takes [start] out of
    [todo]. *)
Lemma reach_inv_first {Num : Type} `{Number Num} G start :
  start ∈ vertices G →
  reach_inv G start (pending_from start [])
    {| todo := delete start ({[start := num_zero]} : gmap Z Num);
       visited := ∅ ∪ {[start]}; parent := ∅; calls := [] |}
    (λ _, [start]).
Proof.
  intros Hs. split; cbn [visited todo parent calls].
  - set_solver.
  - set_solver.
  - intros v Hv. assert (v = start) as -> by set_solver. split.
    + split_and!; [by apply valid_walk_singleton|done..].
    + rewrite size_union by set_solver. by rewrite size_empty, size_singleton.
  - done.
  - intros v Hv Hvs. set_solver.
  - intros v t Hv. rewrite delete_singleton_eq in Hv. by rewrite lookup_empty in Hv.
  - intros u v Hu _ _ Hpend. destruct Hpend. split; [set_solver|apply not_elem_of_nil].
Qed.

(** When the loop ends with [todo] empty, every vertex that can be reached
    from [start] is visited. *)
Lemma reach_inv_closed {Num : Type} G start (st : search Num) tp :
  reach_inv G start no_pending st tp → todo st = ∅ →
  ∀ p v, path_from_to G start v p → v ∈ visited st.
Proof.
  intros Hinv Hempty. induction p as [|v' p IH] using rev_ind; intros v (Hw & Hhd & Hl).
  - done.
  - rewrite last_snoc in Hl. injection Hl as ->.
    destruct (decide (p = [])) as [->|Hne].
    + simpl in Hhd. injection Hhd as ->. apply (reach_start _ _ _ _ _ Hinv).
    + apply valid_walk_snoc_inv in Hw as (Hw & u & Hu & Hf); [|done].
      assert (path_from_to G start u p) as Hp.
      { split_and!; [done| |done]. destruct p; [done|]. by simpl in *. }
      specialize (IH u Hp).
      destruct (decide (v ∈ visited st)) as [|Hv]; [done|].
      destruct (reach_frontier _ _ _ _ _ Hinv u v IH Hf Hv) as (t & Ht); [by intros []|].
      by rewrite Hempty, lookup_empty in Ht.
Qed.

(** The search from the initial state: it ends, and its final state
    satisfies the invariant. *)
Lemma least_cost_path_search_reach {Num : Type} `{Number Num} O G
    (cost : Z * Z → Num) start dest fuel :
  Digraph_wf G → start ∈ vertices G →
  size (vertices G) < fuel →
  ∃ st tp,
    (least_cost_path_while O fuel G dest cost
       {| todo := {[start := num_zero]}; visited := ∅; parent := ∅; calls := [] |}).1
      = Return st ∧
    reach_inv G start no_pending st tp ∧
    (todo st = ∅ ∨ dest ∈ visited st).
Proof.
  intros Hwf Hs Hfuel. destruct fuel as [|fuel]; [lia|]. simpl.
  rewrite decide_True.
  2:{ split; [|set_solver]. intros Hm.
      apply (f_equal (λ m : gmap Z Num, m !! start)) in Hm.
      by rewrite lookup_singleton_eq, lookup_empty in Hm. }
  rewrite dict_iter_singleton. simpl.
  pose proof Hs as Hs'. unfold vertices in Hs'. apply elem_of_dom in Hs' as [adjs Hadj].
  unfold adj_to, getitem. rewrite Hadj.
  pose proof (reach_inv_first G start Hs) as Hfirst.
  set (st1 := {| todo := delete start _ |}) in *.
  destruct (reach_inv_turn O G cost start _ start num_zero adjs st1 Hfirst) as [Hvis Hturn];
    [simpl; set_solver|done|].
  apply (least_cost_path_while_reach O G cost start dest Hwf fuel _ _ Hturn).
  rewrite Hvis. unfold st1. cbn [visited].
  assert (({[start]} : gset Z) ⊆ vertices G) as Hone by set_solver.
  apply subseteq_size in Hone. rewrite size_singleton in Hone.
  rewrite size_union by set_solver. rewrite size_empty, size_singleton. lia.
Qed.

(** What [least_cost_path] returns from a start in the graph, whatever the
    numbers: a path to [dest] if there is one, the empty list if not. *)
Lemma least_cost_path_reaches {Num : Type} `{Number Num} O G source dest
    (c : Z * Z → Num) fuel :
  Digraph_wf G → source ∈ vertices G → size (vertices G) < fuel →
  (∃ p, least_cost_path O fuel G source dest c = Return p ∧
     path_from_to G source dest p) ∨
  (least_cost_path O fuel G source dest c = Return [] ∧
     ∀ q, ¬ path_from_to G source dest q).
Proof.
  intros Hwf Hs Hfuel.
  destruct (least_cost_path_search_reach O G c source dest fuel Hwf Hs Hfuel)
    as (st & tp & Hrun & Hinv & Hend).
  unfold least_cost_path, least_cost_path_run.
  rewrite decide_False by tauto.
  destruct (least_cost_path_while O fuel G dest c _) as [res log]. simpl in Hrun.
  subst res.
  destruct (decide (source = dest)) as [<-|Hne].
  - rewrite decide_True by done. simpl. left. exists [source]. split; [done|].
    split_and!; [by apply valid_walk_singleton|done..].
  - rewrite decide_False by tauto.
    destruct (decide (dest ∈ visited st)) as [HdX|HdX]; simpl.
    + destruct (reach_tree _ _ _ _ _ Hinv dest HdX) as (Hpath & Hlen).
      pose proof (subseteq_size _ _ (reach_verts _ _ _ _ _ Hinv)) as Hsize.
      destruct (least_cost_path_back_reach G source _ st tp Hinv fuel dest [dest])
        as (mid & Hmid & ->); [done|by intros <-|lia|].
      simpl.
      assert (reverse (dest :: reverse mid ++ [source]) = tp dest) as ->.
      { rewrite Hmid. rewrite reverse_cons, reverse_app, reverse_involutive.
        by rewrite reverse_singleton. }
      left. by exists (tp dest).
    + destruct Hend as [Hempty|?]; [|done].
      right. split; [done|]. intros q Hq. apply HdX.
      by apply (reach_inv_closed G source st tp Hinv Hempty q dest).
Qed.

(** ** The invariant of the search with exact costs *)

Lemma dij_inv_weaken G cost start (pending pending' : Z → Z → Prop) st d tp :
  (∀ u v, forward G u v → pending u v → pending' u v) →
  dij_inv G cost start pending st d tp → dij_inv G cost start pending' st d tp.
Proof.
  intros Hsub [H1 H2 H3 H4 H5 H6 H7 H8]. split; try done.
  intros u v Hu Hf Hv Hp. apply H8; [done..|]. intros Hp'. apply Hp. by apply Hsub.
Qed.

(** Every walk from the start to a vertex outside [visited] costs at
    least as much as some entry of [todo]. *)
Lemma dij_inv_lower G cost start st d tp :
  nonneg_cost G cost →
  dij_inv G cost start no_pending st d tp →
  ∀ p v, path_from_to G start v p → v ∉ visited st →
  ∃ y t, todo st !! y = Some t ∧ (t <= path_cost cost p)%Q.
Proof.
  intros Hc Hinv. induction p as [|v' p IH] using rev_ind; intros v (Hw & Hhd & Hl) Hv.
  - done.
  - rewrite last_snoc in Hl. injection Hl as ->.
    destruct (decide (p = [])) as [->|Hne].
    + simpl in Hhd. injection Hhd as ->. destruct Hv.
      apply (dij_start _ _ _ _ _ _ _ Hinv).
    + apply valid_walk_snoc_inv in Hw as (Hw & u & Hu & Hf); [|done].
      assert (path_from_to G start u p) as Hp.
      { split_and!; [done| |done]. destruct p; [done|]. by simpl in *. }
      pose proof (path_cost_snoc cost p u v Hu) as Hcost.
      pose proof (Hc u v Hf) as Huv.
      destruct (decide (u ∈ visited st)) as [HuX|HuX].
      * destruct (dij_frontier _ _ _ _ _ _ _ Hinv u v HuX Hf Hv) as (t & Ht & Hle);
          [by intros []|].
        pose proof (dij_lower _ _ _ _ _ _ _ Hinv u p HuX Hp).
        exists v, t. split; [done|lra].
      * destruct (IH u Hp HuX) as (y & t & Ht & Hle). exists y, t. split; [done|lra].
Qed.

(** Taking the cheapest entry out of [todo]. *)
Lemma dij_inv_pop G cost start st d tp cur c :
  Digraph_wf G → nonneg_cost G cost →
  dij_inv G cost start no_pending st d tp →
  todo st !! cur = Some c →
  (∀ v t, todo st !! v = Some t → (c <= t)%Q) →
  ∃ tp',
    dij_inv G cost start (pending_from cur [])
      {| todo := delete cur (todo st); visited := visited st ∪ {[cur]};
         parent := parent st; calls := calls st |}
      (λ v, if decide (v = cur) then c else d v) tp'.
Proof.
  intros Hwf Hc Hinv Hcur Hmin.
  destruct (dij_todo _ _ _ _ _ _ _ Hinv cur c Hcur) as (HcurX & u & Hpu & HuX & Hf & Hcu).
  assert (u ≠ cur) as Huc by (by intros ->).
  assert (cur ≠ start) as Hcs.
  { intros ->. apply HcurX, (dij_start _ _ _ _ _ _ _ Hinv). }
  destruct (dij_tree _ _ _ _ _ _ _ Hinv u HuX) as ((Hwu & Hhu & Hlu) & Hcostu & Hlenu).
  exists (λ v, if decide (v = cur) then tp u ++ [cur] else tp v).
  assert (size (visited st ∪ {[cur]}) = S (size (visited st))) as Hsize.
  { rewrite size_union by set_solver. rewrite size_singleton. lia. }
  split; simpl.
  - pose proof (dij_start _ _ _ _ _ _ _ Hinv). set_solver.
  - pose proof (dij_verts _ _ _ _ _ _ _ Hinv).
    pose proof (wf_forward_target G u cur Hwf Hf). set_solver.
  - intros v Hv. rewrite Hsize. case_decide as Hvc.
    + subst v. split_and!.
      * split_and!; [by eapply valid_walk_snoc|by destruct (tp u)|by rewrite last_snoc].
      * pose proof (path_cost_snoc cost (tp u) u cur Hlu). lra.
      * rewrite length_app. simpl. lia.
    + destruct (dij_tree _ _ _ _ _ _ _ Hinv v) as (? & ? & ?); [set_solver|].
      split_and!; [done..|lia].
  - rewrite decide_False by done. apply (dij_root _ _ _ _ _ _ _ Hinv).
  - intros v Hv Hvs. case_decide as Hvc.
    + subst v. exists u. rewrite decide_False by done. split_and!; [done|set_solver|done].
    + destruct (dij_parent _ _ _ _ _ _ _ Hinv v) as (u' & Hpu' & Hu' & Htp);
        [set_solver|done|].
      exists u'. rewrite decide_False by (by intros ->).
      split_and!; [done|set_solver|done].
  - intros v p Hv Hp. case_decide as Hvc.
    + subst v.
      destruct (dij_inv_lower G cost start st d tp Hc Hinv p cur Hp HcurX)
        as (y & t & Ht & Hle).
      specialize (Hmin y t Ht). lra.
    + apply (dij_lower _ _ _ _ _ _ _ Hinv); [set_solver|done].
  - intros v t Hv. apply lookup_delete_Some in Hv as [Hvc Hv].
    destruct (dij_todo _ _ _ _ _ _ _ Hinv v t Hv) as (HvX & u' & Hpu' & Hu' & Hf' & Ht).
    split; [set_solver|]. exists u'. rewrite decide_False by (by intros ->).
    split_and!; [done|set_solver|done..].
  - intros u' v Hu' Hf' Hv Hpend.
    assert (u' ≠ cur) as Hne. { intros ->. apply Hpend. split; [done|]. apply not_elem_of_nil. }
    rewrite decide_False by done.
    destruct (dij_frontier _ _ _ _ _ _ _ Hinv u' v) as (t & Ht & Hle);
      [set_solver|done|set_solver|by intros []|].
    exists t. split; [|done]. rewrite lookup_delete_ne; [done|]. set_solver.
Qed.

(** What one pass of the [for] body does to [todo] and [parent]. *)
Lemma least_cost_path_for_cases cost cur c st n :
  let st' := least_cost_path_for cost cur c st n in
  visited st' = visited st ∧
  ((todo st' = todo st ∧ parent st' = parent st ∧
    (n ∈ visited st ∨ ∃ t, todo st !! n = Some t ∧ (t <= c + cost (cur, n))%Q)) ∨
   (todo st' = <[n := (c + cost (cur, n))%Q]> (todo st) ∧
    parent st' = <[n := cur]> (parent st) ∧
    (n ∉ visited st) ∧
    ∀ t, todo st !! n = Some t → (c + cost (cur, n) < t)%Q)).
Proof.
  cbv zeta. unfold least_cost_path_for.
  case_decide as Hn; [split; [done|]; left; by split_and!; [..|left]|].
  cbn [num_lt num_add Q_Number].
  destruct (todo st !! n) as [t|] eqn:Ht; [destruct (Qlt_le_dec _ _) as [Hlt|Hle]|];
    simpl; (split; [done|]).
  - right. split_and!; [done..|]. by intros ? [= <-].
  - left. split_and!; [done..|]. right. by exists t.
  - right. split_and!; done.
Qed.

Lemma dij_inv_relax G cost start st d tp cur c seen n :
  dij_inv G cost start (pending_from cur seen) st d tp →
  cur ∈ visited st → d cur = c → forward G cur n →
  dij_inv G cost start (pending_from cur (n :: seen))
    (least_cost_path_for cost cur c st n) d tp.
Proof.
  intros Hinv HcurX Hdc Hf.
  destruct (least_cost_path_for_cases cost cur c st n) as [Hvis Hcases].
  set (st' := least_cost_path_for cost cur c st n) in *.
  destruct Hinv as [H1 H2 H3 H4 H5 H6 H7 H8].
  destruct Hcases as [(Htodo & Hparent & Hskip)|(Htodo & Hparent & HnX & Hless)];
    split; rewrite ?Hvis, ?Htodo, ?Hparent; try done.
  - intros u v Hu Huv Hv Hpend.
    destruct (decide (u = cur ∧ v = n)) as [[-> ->]|Hne].
    + destruct Hskip as [?|(t & Ht & Hle)]; [done|]. exists t. by rewrite Hdc.
    + apply H8; [done..|]. intros [-> Hvs]. apply Hpend. split; [done|].
      apply not_elem_of_cons. split; [|done]. intros ->. tauto.
  - intros v Hv Hvs. destruct (H5 v Hv Hvs) as (u & Hpu & Hu & Htp).
    exists u. split_and!; [|done..]. rewrite lookup_insert_ne; [done|]. by intros ->.
  - intros v t Hv. destruct (decide (v = n)) as [->|Hvn].
    + rewrite lookup_insert_eq in Hv. injection Hv as <-.
      split; [done|]. exists cur. rewrite lookup_insert_eq.
      split_and!; [done..|]. rewrite Hdc. lra.
    + rewrite lookup_insert_ne in Hv by done.
      destruct (H7 v t Hv) as (HvX & u & Hpu & Hu & Huv & Ht).
      split; [done|]. exists u. rewrite lookup_insert_ne by done. done.
  - intros u v Hu Huv Hv Hpend. destruct (decide (v = n)) as [->|Hvn].
    + rewrite lookup_insert_eq. eexists. split; [done|].
      destruct (decide (u = cur)) as [->|Huc]; [rewrite Hdc; lra|].
      destruct (H8 u n Hu Huv Hv) as (t & Ht & Hle); [by intros [? _]|].
      specialize (Hless t Ht). lra.
    + rewrite lookup_insert_ne by done. apply H8; [done..|].
      intros [-> Hvs]. apply Hpend. split; [done|].
      apply not_elem_of_cons. done.
Qed.

Lemma dij_inv_for G cost start d tp cur c ns : ∀ st seen,
  dij_inv G cost start (pending_from cur seen) st d tp →
  cur ∈ visited st → d cur = c → (∀ n, n ∈ ns → forward G cur n) →
  let st' := foldl (least_cost_path_for cost cur c) st ns in
  visited st' = visited st ∧
  dij_inv G cost start (pending_from cur (ns ++ seen)) st' d tp.
Proof.
  induction ns as [|n ns IH]; intros st seen Hinv Hcur Hdc Hns; simpl; [done|].
  destruct (least_cost_path_for_cases cost cur c st n) as [Hvis _].
  destruct (IH (least_cost_path_for cost cur c st n) (n :: seen)) as [Hvis' Hinv'].
  - apply dij_inv_relax; [done..|]. apply Hns. left.
  - by rewrite Hvis.
  - done.
  - intros m Hm. apply Hns. by right.
  - split; [by rewrite Hvis', Hvis|].
    eapply dij_inv_weaken; [|exact Hinv']. intros u v _ [-> Hv]. split; [done|].
    set_solver.
Qed.

(** One turn of the [while] loop, from the state after the [pop]. *)
Lemma dij_inv_turn O G cost start d tp cur c adjs st :
  dij_inv G cost start (pending_from cur []) st d tp →
  cur ∈ visited st → d cur = c → _tosets G !! cur = Some adjs →
  let st' := foldl (least_cost_path_for cost cur c) st (set_iter O adjs) in
  visited st' = visited st ∧ dij_inv G cost start no_pending st' d tp.
Proof.
  intros Hinv Hcur Hdc Hadj.
  destruct (dij_inv_for G cost start d tp cur c (set_iter O adjs) st []) as [Hvis Hinv'];
    [done..| |].
  - intros n Hn. apply set_iter_elem in Hn. by exists adjs.
  - split; [done|]. eapply dij_inv_weaken; [|exact Hinv'].
    intros u v (s & Hs & Hv) [-> Hnot]. simplify_eq.
    apply Hnot. apply elem_of_app. left. by apply set_iter_elem.
Qed.

Lemma least_cost_path_while_spec O G cost start dest :
  Digraph_wf G → nonneg_cost G cost → ∀ fuel st d tp,
  dij_inv G cost start no_pending st d tp →
  size (vertices G) - size (visited st) < fuel →
  ∃ st' d' tp',
    (least_cost_path_while O fuel G dest cost st).1 = Return st' ∧
    dij_inv G cost start no_pending st' d' tp' ∧
    (todo st' = ∅ ∨ dest ∈ visited st').
Proof.
  intros Hwf Hc. induction fuel as [|fuel IH]; intros st d tp Hinv Hfuel; [lia|].
  simpl. case_decide as Hgo.
  2:{ exists st, d, tp. split_and!; [done..|].
      apply not_and_l in Hgo as [Hgo|Hgo]; [left|right]; by apply dec_stable. }
  destruct Hgo as [Hne Hdest].
  destruct (min_item_spec O (todo st) Hne) as (cur & c & -> & Hcur & Hmin).
  destruct (dij_todo _ _ _ _ _ _ _ Hinv cur c Hcur) as (HcurX & u & _ & _ & Hf & _).
  pose proof (wf_forward_target G u cur Hwf Hf) as HcurV.
  pose proof HcurV as HcurV'. unfold vertices in HcurV'.
  apply elem_of_dom in HcurV' as [adjs Hadj].
  unfold adj_to, getitem. rewrite Hadj.
  destruct (dij_inv_pop G cost start st d tp cur c Hwf Hc Hinv Hcur Hmin) as (tp' & Hpop).
  set (st1 := {| todo := delete cur (todo st) |}) in *.
  destruct (dij_inv_turn O G cost start _ tp' cur c adjs st1 Hpop) as [Hvis Hturn].
  { simpl. set_solver. }
  { by rewrite decide_True. }
  { done. }
  eapply IH; [exact Hturn|]. rewrite Hvis. simpl.
  pose proof (dij_verts _ _ _ _ _ _ _ Hinv) as Hsub.
  assert (visited st ∪ {[cur]} ⊆ vertices G) as Hsub' by set_solver.
  apply subseteq_size in Hsub'. rewrite size_union in Hsub' |- * by set_solver.
  rewrite size_singleton in *. lia.
Qed.

(** Walking the parent pointers back from a visited vertex collects the
    inner vertices of its tree path, last one first. *)
Lemma least_cost_path_back_spec G cost start pending st d tp :
  dij_inv G cost start pending st d tp →
  ∀ fuel v acc, v ∈ visited st → v ≠ start → length (tp v) ≤ S fuel →
  ∃ mid, tp v = start :: mid ++ [v] ∧
    least_cost_path_back fuel (parent st) start v acc = Return (acc ++ reverse mid).
Proof.
  intros Hinv. induction fuel as [|fuel IH]; intros v acc Hv Hvs Hlen;
    destruct (dij_parent _ _ _ _ _ _ _ Hinv v Hv Hvs) as (u & Hpu & Hu & Htp);
    destruct (dij_tree _ _ _ _ _ _ _ Hinv u Hu) as (((Hne & _) & _) & _ & _).
  - rewrite Htp, length_app in Hlen. simpl in Hlen.
    destruct (tp u); [done|]. simpl in Hlen. lia.
  - simpl. unfold getitem. rewrite Hpu. simpl. case_decide as Hus.
    + destruct (IH u (acc ++ [u]) Hu Hus) as (mid & Hmid & ->).
      { rewrite Htp, length_app in Hlen. simpl in Hlen. lia. }
      exists (mid ++ [u]). split.
      * rewrite Htp, Hmid. simpl. by rewrite <- !app_assoc.
      * by rewrite reverse_app, reverse_singleton, <- app_assoc.
    + subst u. exists []. split.
      * by rewrite Htp, (dij_root _ _ _ _ _ _ _ Hinv).
      * by rewrite app_nil_r.
Qed.

(** The state after the first turn of the loop, which takes [start] out of
    [todo]. *)
Lemma dij_inv_first G cost start :
  nonneg_cost G cost → start ∈ vertices G →
  dij_inv G cost start (pending_from start [])
    {| todo := delete start {[start := 0%Q]}; visited := ∅ ∪ {[start]};
       parent := ∅; calls := [] |}
    (λ _, 0%Q) (λ _, [start]).
Proof.
  intros Hc Hs. split; cbn [visited todo parent calls].
  - set_solver.
  - set_solver.
  - intros v Hv. assert (v = start) as -> by set_solver. split_and!.
    + split_and!; [by apply valid_walk_singleton|done..].
    + simpl. lra.
    + rewrite size_union by set_solver. by rewrite size_empty, size_singleton.
  - done.
  - intros v Hv Hvs. set_solver.
  - intros v p _ ((_ & _ & Hp) & _). by eapply path_cost_nonneg.
  - intros v t Hv. rewrite delete_singleton_eq in Hv. by rewrite lookup_empty in Hv.
  - intros u v Hu _ _ Hpend. destruct Hpend. split; [set_solver|apply not_elem_of_nil].
Qed.

(** The search from the initial state: it ends, and its final state
    satisfies the invariant. *)
Lemma least_cost_path_search O G cost start dest fuel :
  Digraph_wf G → nonneg_cost G cost → start ∈ vertices G →
  size (vertices G) < fuel →
  ∃ st d tp,
    (least_cost_path_while O fuel G dest cost
       {| todo := {[start := 0%Q]}; visited := ∅; parent := ∅; calls := [] |}).1
      = Return st ∧
    dij_inv G cost start no_pending st d tp ∧
    (todo st = ∅ ∨ dest ∈ visited st).
Proof.
  intros Hwf Hc Hs Hfuel. destruct fuel as [|fuel]; [lia|]. simpl.
  rewrite decide_True.
  2:{ split; [|set_solver]. intros H.
      apply (f_equal (λ m : gmap Z Q, m !! start)) in H.
      by rewrite lookup_singleton_eq, lookup_empty in H. }
  rewrite dict_iter_singleton. simpl.
  pose proof Hs as Hs'. unfold vertices in Hs'. apply elem_of_dom in Hs' as [adjs Hadj].
  unfold adj_to, getitem. rewrite Hadj.
  pose proof (dij_inv_first G cost start Hc Hs) as Hfirst.
  set (st1 := {| todo := delete start _ |}) in *.
  destruct (dij_inv_turn O G cost start _ _ start 0%Q adjs st1 Hfirst) as [Hvis Hturn];
    [simpl; set_solver|done..|].
  apply (least_cost_path_while_spec O G cost start dest Hwf Hc fuel _ _ _ Hturn).
  rewrite Hvis. unfold st1. cbn [visited].
  assert (({[start]} : gset Z) ⊆ vertices G) as Hone by set_solver.
  apply subseteq_size in Hone. rewrite size_singleton in Hone.
  rewrite size_union by set_solver. rewrite size_empty, size_singleton. lia.
Qed.




(** ** Rounding

    A run of the search on [float] costs, for every iteration order. *)













(** ** A start vertex outside the graph *)

(** A start vertex that is not in the graph and differs from the
    destination: the first [G.adj_to(cur)] raises. *)
Lemma least_cost_path_absent_start {Num : Type} `{Number Num} O fuel G start
    dest (c : Z * Z → Num) :
  start ∉ vertices G → start ≠ dest →
  least_cost_path O (S fuel) G start dest c = Raise KeyError.
Proof.
  intros Hs Hne. unfold least_cost_path, least_cost_path_run.
  rewrite decide_False by tauto. simpl.
  rewrite decide_True.
  2:{ split; [|set_solver]. intros H0.
      by apply (f_equal (λ m : gmap Z Num, m !! start)) in H0;
        rewrite lookup_singleton_eq, lookup_empty in H0. }
  rewrite dict_iter_singleton. simpl.
  unfold vertices in Hs. apply not_elem_of_dom in Hs.
  unfold adj_to, getitem. rewrite Hs. done.
Qed.

(** C3.  The claim fails on the code: on the graph [Digraph([(1, 2)])] the
    call [least_cost_path(G, 0, 1, cost)], whose start [0] is not in the
    graph, does not return [[]] but raises [KeyError]. *)
Theorem least_cost_path_absent_start_raises :
  ∃ G, Digraph_init [(1, 2)]%Z = Return G ∧
    (0%Z ∉ vertices G) ∧
    least_cost_path canonical_order 10 G 0 1 cost = Raise KeyError.
Proof.
  eexists. split; [vm_compute; reflexivity|]. split; [|vm_compute; reflexivity].
  vm_compute. intros H. inversion H.
Qed.

(** * The accessors and the edge set *)

Lemma pairs_of_insert_fresh m v s :
  m !! v = None →
  pairs_of (<[v := s]> m) = set_map (λ w, (v, w)) s ∪ pairs_of m.
Proof.
  intros Hv. unfold pairs_of. rewrite map_fold_insert_L; [done| |done].
  intros. set_solver.
Qed.

Lemma elem_of_pairs_of m v w :
  (v, w) ∈ pairs_of m ↔ ∃ s, m !! v = Some s ∧ w ∈ s.
Proof.
  induction m as [|i x m Hi IH] using map_ind.
  - unfold pairs_of. rewrite map_fold_empty. split; [set_solver|].
    intros (s & Hs & _). by rewrite lookup_empty in Hs.
  - rewrite pairs_of_insert_fresh by done. rewrite elem_of_union, IH, elem_of_map.
    destruct (decide (v = i)) as [->|Hne].
    + rewrite lookup_insert_eq, Hi. split.
      * intros [(w' & [= <-] & Hw)|(s & Hs & _)]; [by exists x|done].
      * intros (s & [= <-] & Hw). left. by exists w.
    + rewrite lookup_insert_ne by done. split; [|by right].
      intros [(w' & [= ? ?] & _)|?]; [by subst|done].
Qed.

Lemma size_pairs_of m : size (pairs_of m) = sum_sizes m.
Proof.
  induction m as [|i x m Hi IH] using map_ind.
  - unfold pairs_of, sum_sizes. by rewrite !map_fold_empty, size_empty.
  - rewrite pairs_of_insert_fresh, sum_sizes_insert_fresh by done.
    rewrite size_union.
    + rewrite IH. unfold set_map. rewrite size_list_to_set.
      * rewrite length_fmap. unfold size, set_size. simpl. lia.
      * apply NoDup_fmap_2; [|apply NoDup_elements]. by intros ?? [= ->].
    + intros [a b] Ha Hb. apply elem_of_map in Ha as (w & [= -> ->] & _).
      apply elem_of_pairs_of in Hb as (s & Hs & _). by rewrite Hi in Hs.
Qed.

Lemma elem_of_edges G v w : (v, w) ∈ edges G ↔ forward G v w.
Proof. apply elem_of_pairs_of. Qed.

Lemma edges_ext G G' :
  (∀ a b, forward G' a b ↔ forward G a b) → edges G' = edges G.
Proof.
  intros H. apply set_eq. intros [a b]. by rewrite !elem_of_edges.
Qed.

(** X1. [edges()] and [adj_to] agree; [adj_to] raises exactly off the
    vertices. *)
Theorem adj_to_edges (G : Digraph) (v : Z) :
  (v ∈ vertices G →
   ∃ s, adj_to G v = Return s ∧ ∀ w, w ∈ s ↔ (v, w) ∈ edges G) ∧
  (v ∉ vertices G →
   adj_to G v = Raise KeyError ∧ ∀ w, (v, w) ∉ edges G).
Proof.
  unfold vertices, adj_to, getitem. split.
  - intros [s Hs]%elem_of_dom. rewrite Hs. exists s. split; [done|].
    intros w. rewrite elem_of_edges. unfold forward. rewrite Hs.
    split; [by exists s|]. by intros (? & [= <-] & ?).
  - intros Hv%not_elem_of_dom. rewrite Hv. split; [done|].
    intros w. rewrite elem_of_edges. intros (s & Hs & _). by rewrite Hv in Hs.
Qed.

(** X2. on a graph built by the class, [adj_from(w)] is the set of sources
    of the edges into [w]. *)
Theorem adj_from_edges (G : Digraph) (w : Z) :
  Digraph_wf G → w ∈ vertices G →
  ∃ t, adj_from G w = Return t ∧ ∀ v, v ∈ t ↔ (v, w) ∈ edges G.
Proof.
  intros [Hm Hk] Hw. unfold vertices in Hw. rewrite Hk in Hw.
  apply elem_of_dom in Hw as [t Ht]. unfold adj_from, getitem. rewrite Ht.
  exists t. split; [done|]. intros v. rewrite elem_of_edges, Hm.
  unfold backward. rewrite Ht. split; [by exists t|]. by intros (? & [= <-] & ?).
Qed.

Lemma adj_from_edges_witness :
  ∃ t, adj_from (graph_of [(1, 3); (2, 3)]%Z) 3 = Return t ∧
       ∀ v, v ∈ t ↔ (v, 3%Z) ∈ edges (graph_of [(1, 3); (2, 3)]%Z).
Proof.
  apply (adj_from_edges (graph_of [(1, 3); (2, 3)]%Z) 3).
  - apply graph_of_wf.
  - apply (bool_decide_unpack _). vm_compute. exact I.
Defined.

(** X3. [num_edges()] is the number of elements of [edges()]. *)
Theorem num_edges_size_edges (G : Digraph) : num_edges G = size (edges G).
Proof. symmetry. apply size_pairs_of. Qed.

(** * add_vertex, add_edge and the constructor *)

Lemma add_edge_result (G : Digraph) (v w : Z) :
  Digraph_wf G →
  ∃ G', add_edge G (v, w) = Return G' ∧
    Digraph_wf G' ∧
    edges G' = edges G ∪ {[(v, w)]} ∧
    vertices G' = vertices G ∪ {[v; w]} ∧
    (∃ s, adj_to G' v = Return s ∧ w ∈ s) ∧
    (∃ t, adj_from G' w = Return t ∧ v ∈ t) ∧
    num_edges G' = if decide ((v, w) ∈ edges G) then num_edges G
                   else S (num_edges G).
Proof.
  intros Hwf. destruct (add_edge_wf G (v, w) Hwf) as (G' & HG' & Hwf').
  destruct (vertices_add_edge G G' (v, w) Hwf HG') as (_ & Hv & Hf).
  destruct (num_edges_add_edge G G' v w HG') as [Hold Hnew].
  exists G'. split_and!; [done..| |done| | |].
  - apply set_eq. intros [a b]. rewrite elem_of_union, !elem_of_edges, Hf.
    rewrite elem_of_singleton. done.
  - assert (forward G' v w) as (s & Hs & Hw) by (apply Hf; by right).
    exists s. unfold adj_to, getitem. by rewrite Hs.
  - assert (backward G' w v) as (t & Ht & Hv').
    { apply (wf_mirror G' Hwf'), Hf. by right. }
    exists t. unfold adj_from, getitem. by rewrite Ht.
  - case_decide as He.
    + apply Hold. by apply elem_of_edges.
    + apply Hnew. by rewrite <- elem_of_edges.
Qed.

(** X4. what [add_edge] does to a graph built by the class. *)
Theorem add_edge_effect (G : Digraph) (v w : Z) :
  Digraph_wf G →
  ∃ G', add_edge G (v, w) = Return G' ∧
    Digraph_wf G' ∧
    edges G' = edges G ∪ {[(v, w)]} ∧
    vertices G' = vertices G ∪ {[v; w]} ∧
    (∃ s, adj_to G' v = Return s ∧ w ∈ s) ∧
    (∃ t, adj_from G' w = Return t ∧ v ∈ t) ∧
    num_edges G' = if decide ((v, w) ∈ edges G) then num_edges G
                   else S (num_edges G).
Proof. apply add_edge_result. Qed.

Lemma add_edge_effect_witness :
  ∃ G', add_edge (graph_of [(1, 2)]%Z) (2, 3)%Z = Return G' ∧
    Digraph_wf G' ∧
    edges G' = edges (graph_of [(1, 2)]%Z) ∪ {[(2, 3)%Z]} ∧
    vertices G' = vertices (graph_of [(1, 2)]%Z) ∪ {[2%Z; 3%Z]} ∧
    (∃ s, adj_to G' 2 = Return s ∧ 3%Z ∈ s) ∧
    (∃ t, adj_from G' 3 = Return t ∧ 2%Z ∈ t) ∧
    num_edges G' = if decide ((2, 3)%Z ∈ edges (graph_of [(1, 2)]%Z))
                   then num_edges (graph_of [(1, 2)]%Z)
                   else S (num_edges (graph_of [(1, 2)]%Z)).
Proof. apply (add_edge_effect (graph_of [(1, 2)]%Z) 2 3). apply graph_of_wf. Defined.

Lemma add_vertex_member G v : v ∈ vertices G → add_vertex G v = G.
Proof. intros Hv. unfold add_vertex. by rewrite decide_False by (by intros ?). Qed.

(** X5. adding an edge that is already there changes nothing. *)
Theorem add_edge_again (G : Digraph) (v w : Z) :
  Digraph_wf G → (v, w) ∈ edges G → add_edge G (v, w) = Return G.
Proof.
  intros Hwf He. apply elem_of_edges in He.
  pose proof (forward_vertex G v w He) as Hv.
  pose proof (wf_forward_target G v w Hwf He) as Hw.
  destruct He as (s & Hs & Hws).
  assert (backward G w v) as (t & Ht & Hvt) by (apply (wf_mirror G Hwf); by exists s).
  unfold add_edge. simpl. rewrite (add_vertex_member G v Hv), (add_vertex_member G w Hw).
  unfold getitem. rewrite Hs. simpl. rewrite Ht. simpl.
  replace (s ∪ {[w]}) with s by set_solver. replace (t ∪ {[v]}) with t by set_solver.
  rewrite !insert_id by done. by destruct G.
Qed.

Lemma add_edge_again_witness :
  add_edge (graph_of [(1, 2); (2, 1); (3, 4)]%Z) (1, 2)%Z
  = Return (graph_of [(1, 2); (2, 1); (3, 4)]%Z).
Proof.
  apply (add_edge_again (graph_of [(1, 2); (2, 1); (3, 4)]%Z) 1 2).
  - apply graph_of_wf.
  - apply (bool_decide_unpack _). vm_compute. exact I.
Defined.

(** X6. what [add_vertex] does to a graph built by the class. *)
Theorem add_vertex_effect (G : Digraph) (v : Z) :
  Digraph_wf G →
  Digraph_wf (add_vertex G v) ∧
  vertices (add_vertex G v) = vertices G ∪ {[v]} ∧
  edges (add_vertex G v) = edges G ∧
  (v ∈ vertices G → add_vertex G v = G) ∧
  (v ∉ vertices G →
   adj_to (add_vertex G v) v = Return ∅ ∧ adj_from (add_vertex G v) v = Return ∅).
Proof.
  intros Hwf. split_and!.
  - by apply add_vertex_wf.
  - apply vertices_add_vertex.
  - apply edges_ext. intros a b. apply forward_add_vertex.
  - apply add_vertex_member.
  - intros Hv. unfold add_vertex, vertices in *. rewrite decide_True by done.
    unfold adj_to, adj_from, getitem. simpl. by rewrite !lookup_insert_eq.
Qed.

Lemma add_vertex_effect_witness :
  Digraph_wf (add_vertex (graph_of [(1, 2)]%Z) 5) ∧
  vertices (add_vertex (graph_of [(1, 2)]%Z) 5) = vertices (graph_of [(1, 2)]%Z) ∪ {[5%Z]} ∧
  edges (add_vertex (graph_of [(1, 2)]%Z) 5) = edges (graph_of [(1, 2)]%Z) ∧
  (5%Z ∈ vertices (graph_of [(1, 2)]%Z) →
   add_vertex (graph_of [(1, 2)]%Z) 5 = graph_of [(1, 2)]%Z) ∧
  (5%Z ∉ vertices (graph_of [(1, 2)]%Z) →
   adj_to (add_vertex (graph_of [(1, 2)]%Z) 5) 5 = Return ∅ ∧
   adj_from (add_vertex (graph_of [(1, 2)]%Z) 5) 5 = Return ∅).
Proof. apply (add_vertex_effect (graph_of [(1, 2)]%Z) 5). apply graph_of_wf. Defined.

Lemma add_edges_spec es : ∀ G,
  Digraph_wf G →
  ∃ G', add_edges G es = Return G' ∧ Digraph_wf G' ∧
    edges G' = edges G ∪ list_to_set es ∧
    vertices G' = vertices G ∪ list_to_set (es.*1) ∪ list_to_set (es.*2).
Proof.
  induction es as [|[v w] es IH]; intros G Hwf; simpl.
  - exists G. split_and!; [done..|set_solver|set_solver].
  - destruct (add_edge_result G v w Hwf) as (G1 & -> & Hwf1 & He1 & Hv1 & _).
    simpl. destruct (IH G1 Hwf1) as (G' & -> & Hwf' & He' & Hv').
    exists G'. split_and!; [done..| |].
    + rewrite He', He1. set_solver.
    + rewrite Hv', Hv1. set_solver.
Qed.

(** X7. [Digraph(edges)] never raises; the graph has exactly the given
    edges, and their endpoints as vertices. *)
Theorem Digraph_init_edges (es : list (Z * Z)) :
  ∃ G, Digraph_init es = Return G ∧
    edges G = list_to_set es ∧
    vertices G = list_to_set (es.*1) ∪ list_to_set (es.*2) ∧
    num_edges G = size (list_to_set es : gset (Z * Z)).
Proof.
  destruct (add_edges_spec es Digraph_empty Digraph_empty_wf)
    as (G & HG & Hwf & He & Hv).
  assert (edges Digraph_empty = ∅) as He0.
  { apply set_eq. intros [a b]. rewrite elem_of_edges. split; [|set_solver].
    intros (s & Hs & _). simpl in Hs. by rewrite lookup_empty in Hs. }
  assert (vertices Digraph_empty = ∅) as Hv0 by apply dom_empty_L.
  exists G. split_and!; [done| | |].
  - rewrite He, He0. set_solver.
  - rewrite Hv, Hv0. set_solver.
  - unfold num_edges. fold (sum_sizes (_tosets G)). rewrite <- size_pairs_of.
    change (pairs_of (_tosets G)) with (edges G).
    rewrite He, He0. f_equal. set_solver.
Qed.

(** * is_path, characterised *)

Lemma is_path_while_member G p : ∀ v,
  Digraph_wf G → v ∈ vertices G → ∃ b, is_path_while G (v :: p) = Return b.
Proof.
  induction p as [|w rest IH]; intros v Hwf Hv; simpl; [by eexists|].
  pose proof Hv as Hv'. unfold vertices in Hv'. apply elem_of_dom in Hv' as [s Hs].
  unfold adj_to, getitem. rewrite Hs. simpl. case_decide as Hw; [by eexists|].
  apply IH; [done|]. eapply wf_forward_target; [done|]. by exists s.
Qed.

(** X8. on a graph built by the class, [is_path] answers [True] exactly on
    the non-empty sequences of vertices of the graph whose consecutive
    pairs are edges. *)
Theorem is_path_true_iff (G : Digraph) (p : list Z) :
  Digraph_wf G →
  (is_path G p = Return true ↔
   p ≠ [] ∧ (∀ v, v ∈ p → v ∈ vertices G) ∧
   ∀ i a b, p !! i = Some a → p !! S i = Some b → (a, b) ∈ edges G).
Proof.
  intros Hwf.
  assert (valid_walk G p ↔
    p ≠ [] ∧ (∀ v, v ∈ p → v ∈ vertices G) ∧
    ∀ i a b, p !! i = Some a → p !! S i = Some b → (a, b) ∈ edges G) as <-.
  { unfold valid_walk. rewrite Forall_forall, consecutive_adjacent.
    unfold adjacent_in. split.
    - intros (? & ? & Hc). split_and!; [done..|]. intros i a b Ha Hb.
      apply elem_of_edges, Hc. by exists i.
    - intros (? & ? & Hc). split_and!; [done..|]. intros a b (i & Ha & Hb).
      apply elem_of_edges. by eapply Hc. }
  split; [by apply walk_is_path|apply is_path_walk].
Qed.

Lemma is_path_true_iff_witness :
  is_path (graph_of [(1, 2); (2, 3)]%Z) [1; 2; 3]%Z = Return true ↔
  [1; 2; 3]%Z ≠ [] ∧
  (∀ v, v ∈ [1; 2; 3]%Z → v ∈ vertices (graph_of [(1, 2); (2, 3)]%Z)) ∧
  ∀ i a b, [1; 2; 3]%Z !! i = Some a → [1; 2; 3]%Z !! S i = Some b →
           (a, b) ∈ edges (graph_of [(1, 2); (2, 3)]%Z).
Proof.
  apply (is_path_true_iff (graph_of [(1, 2); (2, 3)]%Z) [1; 2; 3]%Z).
  apply graph_of_wf.
Defined.

(** X9. on a graph built by the class, [is_path] returns a boolean unless
    the sequence has two or more vertices and the first is not in the
    graph. *)
Theorem is_path_returns (G : Digraph) (p : list Z) :
  Digraph_wf G →
  (length p ≤ 1 ∨ ∃ v, head p = Some v ∧ v ∈ vertices G) →
  ∃ b, is_path G p = Return b.
Proof.
  intros Hwf Hp. destruct p as [|v [|w rest]].
  - by eexists.
  - simpl. case_decide; by eexists.
  - destruct Hp as [Hp|(v' & [= <-] & Hv)]; [simpl in Hp; lia|].
    by apply (is_path_while_member G (w :: rest) v).
Qed.

Lemma is_path_returns_witness :
  ∃ b, is_path (graph_of [(1, 2); (2, 3)]%Z) [1; 3; 0]%Z = Return b.
Proof.
  apply (is_path_returns (graph_of [(1, 2); (2, 3)]%Z) [1; 3; 0]%Z).
  - apply graph_of_wf.
  - right. exists 1%Z. split; [done|].
    apply (bool_decide_unpack _). vm_compute. exact I.
Defined.

(** X10. on a graph built by the class, a sequence whose first vertex is
    in the graph and which contains a vertex that is not, gets the answer
    [False]. *)
Theorem is_path_absent_member_first (G : Digraph) (v : Z) (p : list Z) :
  Digraph_wf G → v ∈ vertices G → (∃ x, x ∈ p ∧ x ∉ vertices G) →
  is_path G (v :: p) = Return false.
Proof. apply is_path_absent_later. Qed.

Lemma is_path_absent_member_first_witness :
  is_path (graph_of [(1, 2); (2, 3); (2, 4); (1, 5); (2, 5); (4, 5); (5, 2)]%Z)
          (1 :: [5; 2; 4; 5; 0])%Z = Return false.
Proof.
  apply is_path_absent_member_first.
  - apply graph_of_wf.
  - apply (bool_decide_unpack _). vm_compute. exact I.
  - exists 0%Z. split; [set_solver|]. vm_compute. intros H. inversion H.
Defined.

(** * compress, characterised *)

(** X11. [compress] returns its argument unchanged exactly when the argument
    has no repeated vertex. *)
Theorem compress_fixed_iff (w : list Z) (fuel : nat) :
  length w < fuel → (compress fuel w = Return w ↔ NoDup w).
Proof.
  intros Hfuel. split.
  - intros Hw. destruct (compress_Return w fuel Hfuel) as (r & Hr & Ht).
    rewrite Hw in Hr. injection Hr as <-. apply (tail_nodup _ _ _ Ht).
  - intros Hnd. by apply compress_nodup.
Qed.

Lemma compress_fixed_iff_witness :
  compress 5 [4; 3; 1; 2]%Z = Return [4; 3; 1; 2]%Z ↔ NoDup [4; 3; 1; 2]%Z.
Proof. apply (compress_fixed_iff [4; 3; 1; 2]%Z 5). simpl. lia. Defined.

(** X12. for every sequence, [compress] returns a subsequence that starts
    and ends as the sequence does, and in which every vertex is followed
    by a vertex that follows it somewhere in the sequence. *)
Theorem compress_subsequence (w : list Z) (fuel : nat) :
  length w < fuel →
  ∃ r, compress fuel w = Return r ∧
    r `sublist_of` w ∧ head r = head w ∧ last r = last w ∧
    ∀ i a b, r !! i = Some a → r !! S i = Some b →
             ∃ k, w !! k = Some a ∧ w !! S k = Some b.
Proof.
  intros Hfuel. destruct (compress_Return w fuel Hfuel) as (r & Hr & Ht).
  destruct Ht as [Hsub Hnd Hhd Hlt Hadj]. rewrite drop_0 in Hsub.
  exists r. split_and!; [done|done|by rewrite Hhd, head_lookup| |].
  - destruct w as [|x w]; [|apply Hlt; simpl; lia].
    apply sublist_nil_r in Hsub. by subst.
  - intros i a b Ha Hb. apply Hadj. by exists i.
Qed.

Lemma compress_subsequence_witness :
  ∃ r, compress 10 [1; 3; 0; 1; 6; 4; 8; 6; 2]%Z = Return r ∧
    r `sublist_of` [1; 3; 0; 1; 6; 4; 8; 6; 2]%Z ∧
    head r = head [1; 3; 0; 1; 6; 4; 8; 6; 2]%Z ∧
    last r = last [1; 3; 0; 1; 6; 4; 8; 6; 2]%Z ∧
    ∀ i a b, r !! i = Some a → r !! S i = Some b →
             ∃ k, [1; 3; 0; 1; 6; 4; 8; 6; 2]%Z !! k = Some a ∧
                  [1; 3; 0; 1; 6; 4; 8; 6; 2]%Z !! S k = Some b.
Proof. apply (compress_subsequence [1; 3; 0; 1; 6; 4; 8; 6; 2]%Z 10). simpl. lia. Defined.

Lemma sublist_full {A} (l1 l2 : list A) :
  l1 `sublist_of` l2 → length l2 ≤ length l1 → l1 = l2.
Proof.
  induction 1 as [|x l1 l2 Hsub IH|x l1 l2 Hsub IH]; simpl; intros Hlen.
  - done.
  - f_equal. apply IH. lia.
  - apply sublist_length in Hsub. lia.
Qed.

(** The result of [compress] on a walk is a walk with the same ends. *)
Lemma compress_tail_walk G s d w r :
  path_from_to G s d w → compress_tail w 0 r →
  path_from_to G s d r ∧ NoDup r ∧ r `sublist_of` w.
Proof.
  intros ((Hne & Hall & Hc) & Hh & Hl) [Hsub Hnd Hhd Hlt Hadj].
  rewrite drop_0 in Hsub.
  assert (0 < length w) by (destruct w; [done|simpl; lia]).
  split; [|done]. split; [|split].
  - split; [|split].
    + intros ->. rewrite <- head_lookup in Hhd. destruct w; done.
    + rewrite Forall_forall in Hall |- *. intros x Hx. apply Hall.
      by eapply elem_of_sublist.
    + apply consecutive_adjacent. intros a b Hab.
      by eapply consecutive_adjacent; [exact Hc|apply Hadj].
  - by rewrite Hhd, <- head_lookup.
  - by rewrite Hlt.
Qed.

(** * shortest_path: the result is a simple path *)

Lemma shortest_path_result O G source dest fuel :
  Digraph_wf G → 2 * size (vertices G) + 1 < fuel →
  source ∈ vertices G → dest ∈ vertices G →
  (∃ p, shortest_path O fuel G source dest = Return (Some p) ∧
     path_from_to G source dest p ∧
     ∀ r, path_from_to G source dest r → length p ≤ length r) ∨
  (shortest_path O fuel G source dest = Return None ∧
     ∀ r, ¬ path_from_to G source dest r).
Proof.
  intros Hwf Hfuel Hs Hd. unfold shortest_path, shortest_path_run.
  rewrite decide_False by tauto.
  apply (shortest_path_while_spec O G source dest Hwf fuel _ _ _ (λ _, 0)).
  - split; try set_solver.
    + intros q Hq. apply list_elem_of_singleton in Hq as ->.
      split; [by apply valid_walk_singleton|done].
    + exists 1, [[source]], []. split_and!; [done|by repeat constructor|constructor].
    + constructor.
  - simpl. lia.
Qed.

Lemma shortest_path_Some O G source dest fuel p :
  Digraph_wf G → 2 * size (vertices G) + 1 < fuel →
  shortest_path O fuel G source dest = Return (Some p) →
  path_from_to G source dest p ∧
  ∀ r, path_from_to G source dest r → length p ≤ length r.
Proof.
  intros Hwf Hfuel Hp.
  destruct (decide (source ∈ vertices G ∧ dest ∈ vertices G)) as [[Hs Hd]|Hn].
  - destruct (shortest_path_result O G source dest fuel Hwf Hfuel Hs Hd)
      as [(p' & Hp' & Hpath & Hmin)|[Hnone _]]; [|congruence].
    rewrite Hp in Hp'. by injection Hp' as <-.
  - unfold shortest_path, shortest_path_run in Hp.
    rewrite decide_True in Hp; [done|]. apply not_and_l in Hn. tauto.
Qed.

(** X13. a path returned by [shortest_path] visits no vertex twice, and
    [compress] leaves it as it is. *)
Theorem shortest_path_simple (O : IterOrder) (G : Digraph) (source dest : Z)
    (fuel fuel' : nat) (p : list Z) :
  Digraph_wf G → 2 * size (vertices G) + 1 < fuel →
  shortest_path O fuel G source dest = Return (Some p) →
  length p < fuel' →
  NoDup p ∧ compress fuel' p = Return p.
Proof.
  intros Hwf Hfuel Hp Hfuel'.
  destruct (shortest_path_Some O G source dest fuel p Hwf Hfuel Hp) as [Hpath Hmin].
  destruct (compress_Return p fuel' Hfuel') as (r & Hr & Ht).
  destruct (compress_tail_walk G source dest p r Hpath Ht) as (Hrpath & Hnd & Hsub).
  assert (r = p) as -> by (apply sublist_full; [done|by apply Hmin]).
  done.
Qed.

Lemma shortest_path_simple_witness :
  NoDup [1; 6; 7]%Z ∧ compress 10 [1; 6; 7]%Z = Return [1; 6; 7]%Z.
Proof.
  apply (shortest_path_simple canonical_order
           (graph_of [(1, 2); (2, 3); (3, 4); (4, 5); (1, 6); (3, 6); (6, 7)]%Z)
           1 7 20 10 [1; 6; 7]%Z).
  - apply graph_of_wf.
  - vm_compute. lia.
  - vm_compute. reflexivity.
  - simpl. lia.
Defined.

(** X14. on every run of [shortest_path], a vertex other than the source
    has its neighbours iterated at most once, the source at most twice. *)
Theorem shortest_path_expansions (O : IterOrder) (fuel : nat) (G : Digraph)
    (source dest v : Z) :
  occurrences v (shortest_path_expanded O fuel G source dest) ≤
  if decide (v = source) then 2 else 1.
Proof. apply shortest_path_expanded_bound. Qed.

(** * least_cost_path: absent destination, unit cost, calls of the cost function *)

Lemma least_cost_path_result O G source dest c fuel :
  Digraph_wf G → nonneg_cost G c →
  source ∈ vertices G → size (vertices G) < fuel →
  (∃ p, least_cost_path O fuel G source dest c = Return p ∧
     path_from_to G source dest p ∧
     ∀ q, path_from_to G source dest q → (path_cost c p <= path_cost c q)%Q) ∨
  (least_cost_path O fuel G source dest c = Return [] ∧
     ∀ q, ¬ path_from_to G source dest q).
Proof.
  intros Hwf Hc Hs Hfuel.
  destruct (least_cost_path_search O G c source dest fuel Hwf Hc Hs Hfuel)
    as (st & d & tp & Hrun & Hinv & Hend).
  unfold least_cost_path, least_cost_path_run.
  rewrite decide_False by tauto.
  destruct (least_cost_path_while O fuel G dest c _) as [res log]. simpl in Hrun.
  subst res.
  destruct (decide (source = dest)) as [<-|Hne].
  - rewrite decide_True by done. simpl. left. exists [source]. split_and!; [done| |].
    + split_and!; [by apply valid_walk_singleton|done..].
    + intros q ((_ & _ & Hq) & _). simpl. by eapply path_cost_nonneg.
  - rewrite decide_False by tauto.
    destruct (decide (dest ∈ visited st)) as [HdX|HdX]; simpl.
    + destruct (dij_tree _ _ _ _ _ _ _ Hinv dest HdX) as (Hpath & Hcost & Hlen).
      pose proof (subseteq_size _ _ (dij_verts _ _ _ _ _ _ _ Hinv)) as Hsize.
      destruct (least_cost_path_back_spec G c source _ st d tp Hinv fuel dest [dest])
        as (mid & Hmid & ->); [done|by intros <-|lia|].
      simpl.
      assert (reverse (dest :: reverse mid ++ [source]) = tp dest) as ->.
      { rewrite Hmid. rewrite reverse_cons, reverse_app, reverse_involutive.
        by rewrite reverse_singleton. }
      left. exists (tp dest). split_and!; [done..|].
      intros q Hq. pose proof (dij_lower _ _ _ _ _ _ _ Hinv dest q HdX Hq). lra.
    + destruct Hend as [Hempty|?]; [|done].
      right. split; [done|]. intros q Hq.
      destruct (dij_inv_lower G c source st d tp Hc Hinv q dest Hq HdX)
        as (y & t & Ht & _).
      by rewrite Hempty, lookup_empty in Ht.
Qed.

(** X15. a destination that is not in the graph: with a start that is, the
    search runs dry and the result is the empty list, whatever numbers the
    cost function returns. *)
Theorem least_cost_path_absent_dest {Num : Type} `{Number Num} (O : IterOrder)
    (G : Digraph) (start dest : Z) (c : Z * Z → Num) (fuel : nat) :
  Digraph_wf G →
  start ∈ vertices G → dest ∉ vertices G → size (vertices G) < fuel →
  least_cost_path O fuel G start dest c = Return [].
Proof.
  intros Hwf Hs Hd Hfuel.
  destruct (least_cost_path_reaches O G start dest c fuel Hwf Hs Hfuel)
    as [(p & _ & Hpath)|[Hres _]]; [|done].
  destruct Hd. destruct Hpath as (Hw & _ & Hl). by eapply valid_walk_last.
Qed.

Lemma least_cost_path_absent_dest_witness :
  least_cost_path canonical_order 10
    (graph_of [(1,2); (2,3); (3,1); (4,3); (3,5); (5,4); (6,7)]%Z) 1 8 cost
  = Return [].
Proof.
  apply least_cost_path_absent_dest.
  - apply graph_of_wf.
  - apply (bool_decide_unpack _). vm_compute. exact I.
  - apply (bool_decide_unpack _). vm_compute. exact I.
  - vm_compute. lia.
Defined.

Lemma path_cost_unit p :
  (path_cost cost p == inject_Z (Z.of_nat (length p - 1)))%Q.
Proof.
  induction p as [|a [|b rest] IH]; [done..|].
  change (path_cost cost (a :: b :: rest))
    with (cost (a, b) + path_cost cost (b :: rest))%Q.
  rewrite IH. unfold cost. simpl length.
  replace (Z.of_nat (S (S (length rest)) - 1)) with (1 + Z.of_nat (length rest))%Z by lia.
  replace (Z.of_nat (S (length rest) - 1)) with (Z.of_nat (length rest)) by lia.
  rewrite inject_Z_plus. reflexivity.
Qed.

(** X16. with the unit cost of [dijkstra.py], [least_cost_path] returns a
    path with as many vertices as the one [shortest_path] returns. *)
Theorem least_cost_path_unit_shortest (O O' : IterOrder) (G : Digraph)
    (source dest : Z) (fuel : nat) (p q : list Z) :
  Digraph_wf G → 2 * size (vertices G) + 1 < fuel →
  shortest_path O fuel G source dest = Return (Some q) →
  least_cost_path O' fuel G source dest cost = Return p →
  length p = length q.
Proof.
  intros Hwf Hfuel Hq Hp.
  destruct (shortest_path_Some O G source dest fuel q Hwf Hfuel Hq) as [Hqpath Hqmin].
  assert (source ∈ vertices G) as Hs.
  { destruct Hqpath as ((_ & Hall & _) & Hh & _). rewrite Forall_forall in Hall.
    apply Hall. destruct q; [done|]. simpl in Hh. injection Hh as ->. left. }
  destruct (least_cost_path_result O' G source dest cost fuel Hwf) as
    [(p' & Hp' & Hppath & Hpmin)|[_ Hno]]; [by intros ???|done|lia| |by destruct (Hno q)].
  rewrite Hp in Hp'. injection Hp' as <-.
  specialize (Hqmin p Hppath). specialize (Hpmin q Hqpath).
  rewrite !path_cost_unit in Hpmin. rewrite <- Zle_Qle in Hpmin.
  destruct Hqpath as ((Hqne & _) & _). destruct q; [done|]. simpl in *. lia.
Qed.

Lemma least_cost_path_unit_shortest_witness :
  length [1; 2; 3; 5]%Z = length [1; 2; 3; 5]%Z.
Proof.
  apply (least_cost_path_unit_shortest canonical_order canonical_order
           (graph_of [(1,2); (2,3); (3,1); (4,3); (3,5); (5,4); (6,7)]%Z) 1 5 20).
  - apply graph_of_wf.
  - vm_compute. lia.
  - vm_compute. reflexivity.
  - vm_compute. reflexivity.
Defined.

Lemma call_count_app e l1 l2 :
  call_count e (l1 ++ l2) = call_count e l1 + call_count e l2.
Proof. unfold call_count. by rewrite filter_app, length_app. Qed.

Lemma call_count_absent e l : e ∉ l → call_count e l = 0.
Proof.
  intros He. unfold call_count. induction l as [|x l IH]; [done|].
  rewrite filter_cons_False by (intros ->; apply He; left).
  apply IH. intros ?. apply He. by right.
Qed.

(** What one pass of the [for] body adds to the log. *)
Lemma least_cost_path_for_log {Num : Type} `{Number Num} (cost : Z * Z → Num)
    cur c st n :
  let st' := least_cost_path_for cost cur c st n in
  visited st' = visited st ∧
  (∀ v, v ∈ dom (todo st') → v ∈ dom (todo st) ∨ v ∉ visited st) ∧
  ∃ extra, calls st' = calls st ++ extra ∧
    (∀ e, e ∈ extra → e = (cur, n)) ∧ length extra ≤ 2.
Proof.
  cbv zeta. unfold least_cost_path_for. case_decide as Hn.
  { split_and!; [done|by left|]. exists []. rewrite app_nil_r.
    split_and!; [done| |simpl; lia]. by intros e ?%elem_of_nil. }
  destruct (todo st !! n) as [t|] eqn:Ht; [destruct (num_lt _ _)|]; simpl;
    (split; [done|]); (split; [|eexists; split; [reflexivity|]]).
  - intros v. rewrite dom_insert. set_solver.
  - split; [|simpl; lia]. intros e He. set_solver.
  - by left.
  - split; [|simpl; lia]. intros e He. set_solver.
  - intros v. rewrite dom_insert. set_solver.
  - split; [|simpl; lia]. intros e He. set_solver.
Qed.

Lemma call_count_le_length e l : call_count e l ≤ length l.
Proof. unfold call_count. apply length_filter. Qed.

Lemma least_cost_path_fold_log {Num : Type} `{Number Num} (cost : Z * Z → Num)
    cur c l : ∀ st,
  NoDup l →
  let st' := foldl (least_cost_path_for cost cur c) st l in
  visited st' = visited st ∧
  (∀ v, v ∈ dom (todo st') → v ∈ dom (todo st) ∨ v ∉ visited st) ∧
  ∃ extra, calls st' = calls st ++ extra ∧
    (∀ e, e ∈ extra → e.1 = cur ∧ e.2 ∈ l) ∧ ∀ e, call_count e extra ≤ 2.
Proof.
  induction l as [|n l IH]; intros st Hnd; simpl.
  { split_and!; [done|by left|]. exists []. rewrite app_nil_r.
    split_and!; [done|by intros e ?%elem_of_nil|]. intros e. unfold call_count. simpl. lia. }
  apply NoDup_cons in Hnd as [Hn Hnd].
  destruct (least_cost_path_for_log cost cur c st n) as (Hv1 & Ht1 & x1 & Hc1 & Hx1 & Hlen1).
  destruct (IH (least_cost_path_for cost cur c st n) Hnd) as (Hv2 & Ht2 & x2 & Hc2 & Hx2 & Hcnt2).
  split_and!.
  - by rewrite Hv2, Hv1.
  - intros v Hv. destruct (Ht2 v Hv) as [Hd|Hd]; [by apply Ht1|right; by rewrite <- Hv1].
  - exists (x1 ++ x2). split_and!.
    + by rewrite Hc2, Hc1, app_assoc.
    + intros e [He|He]%elem_of_app.
      * rewrite (Hx1 e He). simpl. split; [done|left].
      * destruct (Hx2 e He). split; [done|by right].
    + intros e. rewrite call_count_app. destruct (decide (e = (cur, n))) as [->|Hne].
      * rewrite (call_count_absent (cur, n) x2).
        -- pose proof (call_count_le_length (cur, n) x1). lia.
        -- intros He. by destruct (Hx2 _ He) as [_ ?].
      * rewrite (call_count_absent e x1) by (intros He; by apply Hne, Hx1).
        apply Hcnt2.
Qed.

Lemma least_cost_path_while_budget {Num : Type} `{Number Num} O G dest
    (cost : Z * Z → Num) fuel : ∀ st,
  calls_budget st →
  ∀ e, call_count e (least_cost_path_while O fuel G dest cost st).2 ≤ 2.
Proof.
  induction fuel as [|fuel IH]; intros st Hb e; simpl;
    [apply (budget_count st Hb)|].
  case_decide as Hgo; [|apply (budget_count st Hb)].
  destruct Hgo as [Hne _].
  destruct (min_item_elem O (todo st) Hne) as (cur & c & -> & Hcur).
  unfold adj_to, getitem. destruct (_tosets G !! cur) as [adjs|];
    [|apply (budget_count st Hb)].
  assert (cur ∉ visited st) as HcurX.
  { apply (budget_todo st Hb). apply elem_of_dom. eauto. }
  set (st1 := {| todo := delete cur (todo st) |}).
  destruct (least_cost_path_fold_log cost cur c (set_iter O adjs) st1
              (set_iter_NoDup O adjs)) as (Hv & Ht & extra & Hc & Hx & Hcnt).
  apply IH. split.
  - intros v Hvd. rewrite Hv. simpl. destruct (Ht v Hvd) as [Hd|Hd]; [|done].
    simpl in Hd. rewrite dom_delete in Hd.
    apply elem_of_difference in Hd as [Hd Hvc].
    pose proof (budget_todo st Hb v Hd). set_solver.
  - intros e' He'. rewrite Hv. rewrite Hc in He'. simpl in *.
    apply elem_of_app in He' as [He'|He'].
    + pose proof (budget_from st Hb e' He'). set_solver.
    + destruct (Hx e' He') as [-> _]. set_solver.
  - intros e'. rewrite Hc, call_count_app. simpl.
    destruct (decide (e'.1 = cur)) as [Heq|Hneq].
    + rewrite (call_count_absent e' (calls st)); [apply Hcnt|].
      intros He'. apply HcurX. rewrite <- Heq. by apply (budget_from st Hb).
    + rewrite (call_count_absent e' extra).
      * pose proof (budget_count st Hb e'). lia.
      * intros He'. by destruct (Hx e' He').
Qed.

(** X17. whatever the graph, the endpoints and the cost function,
    [least_cost_path] hands each edge to the cost function at most
    twice. *)
Theorem least_cost_path_calls_twice {Num : Type} `{Number Num} (O : IterOrder)
    (fuel : nat) (G : Digraph) (start dest : Z) (c : Z * Z → Num) (e : Z * Z) :
  call_count e (least_cost_path_calls O fuel G start dest c) ≤ 2.
Proof.
  unfold least_cost_path_calls, least_cost_path_run.
  case_decide; [unfold call_count; simpl; lia|].
  set (st0 := {| todo := _ |}).
  pose proof (least_cost_path_while_budget O G dest c fuel st0) as Hlog.
  destruct (least_cost_path_while O fuel G dest c st0) as [[st| |] log]; simpl in *.
  - repeat case_decide; simpl; apply Hlog; (split; simpl;
      [set_solver|by intros ? ?%elem_of_nil|intros; unfold call_count; simpl; lia]).
  - apply Hlog; (split; simpl;
      [set_solver|by intros ? ?%elem_of_nil|intros; unfold call_count; simpl; lia]).
  - apply Hlog; (split; simpl;
      [set_solver|by intros ? ?%elem_of_nil|intros; unfold call_count; simpl; lia]).
Qed.

(** The bound of two calls per edge is reached: the edge [(3, 2)] improves
    the estimate for [2], so the cost function sees it in the comparison
    and again in the assignment. *)
Example least_cost_path_calls_twice_reached :
  let c := λ e : Z * Z, if decide (e = (1, 2)%Z) then 5%Q else 1%Q in
  least_cost_path canonical_order 10 (graph_of [(1, 2); (1, 3); (3, 2)]%Z) 1 2 c
    = Return [1; 3; 2]%Z ∧
  call_count (3, 2)%Z
    (least_cost_path_calls canonical_order 10
       (graph_of [(1, 2); (1, 3); (3, 2)]%Z) 1 2 c) = 2.
Proof. vm_compute. split; reflexivity. Qed.

(** * spanning_tree *)

Lemma list_pop_snoc {A} (l : list A) x : list_pop (l ++ [x]) = Some (x, l).
Proof. induction l as [|y l IH]; simpl; [done|]. by rewrite IH. Qed.

Lemma list_pop_None {A} (l : list A) : list_pop l = None → l = [].
Proof. destruct l as [|x l]; simpl; [done|]. by destruct (list_pop l) as [[? ?]|]. Qed.

Lemma list_pop_Some {A} (l : list A) x r : list_pop l = Some (x, r) → l = r ++ [x].
Proof.
  revert x r. induction l as [|y l IH]; intros x r; simpl; [done|].
  destruct (list_pop l) as [[z r']|] eqn:Hl.
  - intros [= <- <-]. by rewrite (IH z r').
  - intros [= <- <-]. by rewrite (list_pop_None l Hl).
Qed.

Lemma spanning_tree_for_fold cur visited l : ∀ todo,
  foldl (spanning_tree_for cur visited) todo l =
  todo ++ ((λ n, (n, Some (cur, n))) <$> filter (λ n, n ∉ visited) l).
Proof.
  induction l as [|n l IH]; intros todo.
  { simpl. by rewrite app_nil_r. }
  simpl. rewrite IH. unfold spanning_tree_for. case_decide as Hn.
  - rewrite filter_cons_True by done. simpl. by rewrite <- app_assoc.
  - rewrite filter_cons_False by tauto. done.
Qed.

Lemma unexplored_visit G visited cur adjs :
  cur ∉ visited → _tosets G !! cur = Some adjs →
  size (unexplored G visited) = size (unexplored G (visited ∪ {[cur]})) + size adjs.
Proof.
  intros Hcur Hadj.
  assert (unexplored G visited =
          unexplored G (visited ∪ {[cur]}) ∪ set_map (λ n, (cur, n)) adjs) as ->.
  { apply set_eq. intros [a b]. unfold unexplored.
    rewrite elem_of_union, !elem_of_filter, elem_of_map, !elem_of_edges. simpl.
    split.
    - intros [Ha Hf]. destruct (decide (a = cur)) as [->|Hne].
      + right. exists b. split; [done|]. destruct Hf as (s & Hs & Hb). by simplify_eq.
      + left. split; [set_solver|done].
    - intros [[Ha Hf]|(n & [= -> ->] & Hn)]; [split; [set_solver|done]|].
      split; [done|]. by exists adjs. }
  rewrite size_union.
  - f_equal. unfold set_map. rewrite size_list_to_set.
    + rewrite length_fmap. done.
    + apply NoDup_fmap_2; [|apply NoDup_elements]. by intros ?? [= ->].
  - intros [a b] Ha Hb. unfold unexplored in Ha.
    apply elem_of_filter in Ha as [Ha _]. apply elem_of_map in Hb as (n & [= -> ->] & _).
    simpl in Ha. set_solver.
Qed.

Lemma valid_walk_mono G G' p :
  (∀ a b, forward G a b → forward G' a b) → vertices G ⊆ vertices G' →
  valid_walk G p → valid_walk G' p.
Proof.
  intros Hf Hv (Hne & Hall & Hc). split_and!; [done| |].
  - eapply Forall_impl; [exact Hall|]. intros x Hx. by apply Hv.
  - apply consecutive_adjacent. intros a b Hab. apply Hf.
    by eapply consecutive_adjacent.
Qed.

Lemma dfs_inv_skip G start rest cur e visited T :
  dfs_inv G start (rest ++ [(cur, e)]) visited T → cur ∈ visited →
  dfs_inv G start rest visited T.
Proof.
  intros [H1 H2 H3 H4 H5 H6 H7 H8 H9 H10 H11] Hcur. split; try done.
  - intros n e' Hin. apply H10. set_solver.
  - intros u n Hu Hf. destruct (H11 u n Hu Hf) as [?|Hin]; [by left|].
    apply elem_of_app in Hin as [?|Hin]; [by right|].
    apply list_elem_of_singleton in Hin as [= -> _]. by left.
Qed.

Lemma dfs_inv_visit O G start rest cur e visited T adjs :
  Digraph_wf G →
  dfs_inv G start (rest ++ [(cur, e)]) visited T → cur ∉ visited →
  _tosets G !! cur = Some adjs →
  ∃ e' T', e = Some e' ∧ add_edge T e' = Return T' ∧
    dfs_inv G start
      (rest ++ ((λ n, (n, Some (cur, n))) <$>
                filter (λ n, n ∉ visited ∪ {[cur]}) (set_iter O adjs)))
      (visited ∪ {[cur]}) T'.
Proof.
  intros Hwf [H1 H2 H3 H4 H5 H6 H7 H8 H9 H10 H11] Hcur Hadj.
  destruct (H10 cur e) as (u & -> & Hu & Hf); [set_solver|].
  destruct (add_edge_wf T (u, cur) H3) as (T' & HT' & Hwf').
  destruct (vertices_add_edge T T' (u, cur) H3 HT') as (_ & Hv' & Hf').
  destruct (num_edges_add_edge T T' u cur HT') as [_ Hnew].
  simpl in Hv'.
  assert (cur ≠ start) as Hcs by (by intros ->).
  assert (¬ forward T u cur) as Hfresh.
  { intros Hin. by destruct (H5 u cur Hin) as (_ & ? & _). }
  assert (∀ a b, forward T a b → forward T' a b) as Hmono.
  { intros a b Hab. apply Hf'. by left. }
  assert (vertices T ⊆ vertices T') as Hvmono by set_solver.
  exists (u, cur), T'. split_and!; [done..|]. split.
  - set_solver.
  - pose proof (wf_forward_target G u cur Hwf Hf). set_solver.
  - done.
  - intros a b [Hab|[= -> ->]]%Hf'; [by apply H4|done].
  - intros a b [Hab|[= -> ->]]%Hf'.
    + destruct (H5 a b Hab) as (? & ? & ?). set_solver.
    + set_solver.
  - intros v Hv. rewrite Hv' in Hv.
    apply elem_of_union in Hv as [Hv|Hv].
    + destruct (H6 v Hv) as [b [Hb|Hb]]; exists b; [left|right]; by apply Hmono.
    + assert (v = u ∨ v = cur) as [->| ->] by set_solver.
      * exists cur. left. apply Hf'. by right.
      * exists u. right. apply Hf'. by right.
  - intros a a' b [Hab|Hab]%Hf' [Hab'|Hab']%Hf'.
    + by eapply H7.
    + injection Hab' as -> ->. by destruct (H5 a cur Hab) as (_ & ? & _).
    + injection Hab as -> ->. by destruct (H5 a' cur Hab') as (_ & ? & _).
    + congruence.
  - rewrite (Hnew Hfresh). rewrite size_union by set_solver.
    rewrite size_singleton. lia.
  - intros v Hv Hvs. destruct (decide (v = cur)) as [->|Hvc].
    + assert (forward T' u cur) as Hucur by (apply Hf'; by right).
      destruct (decide (u = start)) as [->|Hus].
      * exists [start; cur]. split_and!; [|done..]. split_and!; [done| |done].
        repeat constructor; rewrite Hv'; set_solver.
      * destruct (H9 u Hu Hus) as (p & Hp & Hh & Hl).
        exists (p ++ [cur]). split_and!.
        -- eapply valid_walk_snoc; [done| |done..]. by eapply valid_walk_mono.
        -- destruct p; [by destruct Hp|done].
        -- by rewrite last_snoc.
    + destruct (H9 v) as (p & Hp & Hh & Hl); [set_solver|done|].
      exists p. split_and!; [|done..]. by eapply valid_walk_mono.
  - intros n e' [Hin|Hin]%elem_of_app.
    + destruct (H10 n e') as (c' & -> & Hc' & Hfc'); [set_solver|].
      exists c'. split_and!; [done|set_solver|done].
    + apply list_elem_of_fmap in Hin as (n' & [= -> ->] & Hn').
      apply list_elem_of_filter in Hn' as [_ Hn']. apply set_iter_elem in Hn'.
      exists cur. split_and!; [done|set_solver|by exists adjs].
  - intros a n Ha Hfan. destruct (decide (n ∈ visited ∪ {[cur]})) as [?|Hn]; [by left|].
    right. apply elem_of_app. apply elem_of_union in Ha as [Ha|Ha].
    + destruct (H11 a n Ha Hfan) as [?|Hin]; [set_solver|].
      apply elem_of_app in Hin as [?|Hin]; [by left|].
      apply list_elem_of_singleton in Hin as [= -> _]. set_solver.
    + apply elem_of_singleton in Ha as ->. right.
      apply list_elem_of_fmap. exists n. split; [done|].
      apply list_elem_of_filter. split; [done|]. apply set_iter_elem.
      destruct Hfan as (s & Hs & Hn'). by simplify_eq.
Qed.

Lemma spanning_tree_while_spec O G start :
  Digraph_wf G → ∀ fuel todo visited T,
  dfs_inv G start todo visited T →
  length todo + size (unexplored G visited) < fuel →
  ∃ T' visited', spanning_tree_while O fuel G todo visited T = Return T' ∧
    dfs_inv G start [] visited' T'.
Proof.
  intros Hwf. induction fuel as [|fuel IH]; intros todo visited T Hinv Hfuel; [lia|].
  simpl. destruct (list_pop todo) as [[[cur e] rest]|] eqn:Hpop.
  2:{ apply list_pop_None in Hpop as ->. by exists T, visited. }
  apply list_pop_Some in Hpop as ->. rewrite length_app in Hfuel. simpl in Hfuel.
  case_decide as Hcur.
  - apply IH; [by eapply dfs_inv_skip|lia].
  - assert (cur ∈ vertices G) as HcurV.
    { destruct (dfs_todo _ _ _ _ _ Hinv cur e) as (u & _ & _ & Hf); [set_solver|].
      by eapply wf_forward_target. }
    pose proof HcurV as HcurV'. unfold vertices in HcurV'.
    apply elem_of_dom in HcurV' as [adjs Hadj].
    destruct (dfs_inv_visit O G start rest cur e visited T adjs Hwf Hinv Hcur Hadj)
      as (e' & T' & -> & HT' & Hinv').
    rewrite HT'. simpl. unfold adj_to, getitem. rewrite Hadj. simpl.
    rewrite spanning_tree_for_fold. apply IH; [done|].
    rewrite length_app, length_fmap.
    pose proof (unexplored_visit G visited cur adjs Hcur Hadj) as Hsize.
    pose proof (length_filter (λ n, n ∉ visited ∪ {[cur]}) (set_iter O adjs)) as Hlen.
    assert (length (set_iter O adjs) = size adjs) as Hadjs.
    { rewrite (set_iter_perm O adjs). done. }
    lia.
Qed.

Lemma dfs_inv_init O G start adjs :
  start ∈ vertices G → _tosets G !! start = Some adjs →
  dfs_inv G start
    ((λ n, (n, Some (start, n))) <$>
     filter (λ n, n ∉ (∅ ∪ {[start]} : gset Z)) (set_iter O adjs))
    (∅ ∪ {[start]}) Digraph_empty.
Proof.
  intros Hs Hadj.
  assert (∀ a b, ¬ forward Digraph_empty a b) as Hno.
  { intros a b (s & Hs' & _). simpl in Hs'. by rewrite lookup_empty in Hs'. }
  split.
  - set_solver.
  - set_solver.
  - apply Digraph_empty_wf.
  - intros a b Hab. by destruct (Hno a b).
  - intros a b Hab. by destruct (Hno a b).
  - intros v Hv. unfold vertices in Hv. simpl in Hv. rewrite dom_empty_L in Hv. set_solver.
  - intros a a' b Hab. by destruct (Hno a b).
  - assert (num_edges Digraph_empty = 0) as -> by apply map_fold_empty.
    rewrite size_union by set_solver. by rewrite size_empty, size_singleton.
  - intros v Hv Hvs. set_solver.
  - intros n e Hin. apply list_elem_of_fmap in Hin as (n' & [= -> ->] & Hn').
    apply list_elem_of_filter in Hn' as [_ Hn']. apply set_iter_elem in Hn'.
    exists start. split_and!; [done|set_solver|by exists adjs].
  - intros u n Hu (s & Hs' & Hn). assert (u = start) as -> by set_solver.
    simplify_eq. destruct (decide (n ∈ (∅ ∪ {[start]} : gset Z))) as [?|Hn']; [by left|].
    right. apply list_elem_of_fmap. exists n. split; [done|].
    apply list_elem_of_filter. split; [done|]. by apply set_iter_elem.
Qed.

(** The search from the start: it ends in a state with an empty stack
    that satisfies the invariant. *)
Lemma spanning_tree_spec O G start fuel :
  Digraph_wf G → start ∈ vertices G → num_edges G + 1 < fuel →
  ∃ T visited, spanning_tree O fuel G start = Return T ∧
    dfs_inv G start [] visited T.
Proof.
  intros Hwf Hs Hfuel. destruct fuel as [|fuel]; [lia|].
  unfold spanning_tree. simpl. rewrite decide_False by set_solver.
  pose proof Hs as Hs'. unfold vertices in Hs'. apply elem_of_dom in Hs' as [adjs Hadj].
  unfold adj_to, getitem. rewrite Hadj. simpl.
  rewrite spanning_tree_for_fold. simpl.
  apply (spanning_tree_while_spec O G start Hwf); [by apply dfs_inv_init|].
  rewrite length_fmap.
  pose proof (unexplored_visit G ∅ start adjs ltac:(set_solver) Hadj) as Hsize.
  pose proof (length_filter (λ n, n ∉ (∅ ∪ {[start]} : gset Z)) (set_iter O adjs)) as Hlen.
  assert (length (set_iter O adjs) = size adjs) as Hadjs.
  { rewrite (set_iter_perm O adjs). done. }
  assert (size (unexplored G ∅) ≤ num_edges G) as Hle.
  { unfold num_edges. fold (sum_sizes (_tosets G)). rewrite <- size_pairs_of.
    apply subseteq_size. unfold unexplored. intros x Hx.
    by apply elem_of_filter in Hx as [_ ?]. }
  lia.
Qed.

(** With an empty stack every vertex that can be reached from the start
    is visited. *)
Lemma dfs_inv_closed G start visited T :
  dfs_inv G start [] visited T →
  ∀ p v, path_from_to G start v p → v ∈ visited.
Proof.
  intros Hinv. induction p as [|v' p IH] using rev_ind; intros v (Hw & Hh & Hl).
  - done.
  - rewrite last_snoc in Hl. injection Hl as ->.
    destruct (decide (p = [])) as [->|Hne].
    + simpl in Hh. injection Hh as ->. apply (dfs_start _ _ _ _ _ Hinv).
    + apply valid_walk_snoc_inv in Hw as (Hw & u & Hu & Hf); [|done].
      assert (u ∈ visited) as HuX.
      { apply IH. split_and!; [done| |done]. destruct p; [done|]. by simpl in *. }
      destruct (dfs_frontier _ _ _ _ _ Hinv u v HuX Hf) as [?|Hin]; [done|].
      by apply elem_of_nil in Hin.
Qed.

Lemma valid_walk_head G p v : valid_walk G p → head p = Some v → v ∈ vertices G.
Proof.
  intros (_ & Hall & _) Hh. rewrite Forall_forall in Hall. apply Hall.
  destruct p; [done|]. simpl in Hh. injection Hh as ->. left.
Qed.

Lemma dfs_inv_vertices G start visited T :
  dfs_inv G start [] visited T →
  vertices T ⊆ visited ∧ (vertices T ≠ ∅ → vertices T = visited).
Proof.
  intros Hinv.
  assert (vertices T ⊆ visited) as Hsub.
  { intros v Hv. destruct (dfs_verts _ _ _ _ _ Hinv v Hv) as [b [Hb|Hb]].
    - by destruct (dfs_ends _ _ _ _ _ Hinv v b Hb) as (? & _).
    - by destruct (dfs_ends _ _ _ _ _ Hinv b v Hb) as (_ & ? & _). }
  split; [done|]. intros Hne. apply set_eq. intros v. split; [apply Hsub|].
  intros Hv.
  assert (∀ x, x ∈ visited → x ≠ start → x ∈ vertices T ∧ start ∈ vertices T) as Hpath.
  { intros x Hx Hxs. destruct (dfs_tpath _ _ _ _ _ Hinv x Hx Hxs) as (p & Hp & Hh & Hl).
    split; [by eapply valid_walk_last|by eapply valid_walk_head]. }
  destruct (decide (v = start)) as [->|Hvs]; [|by apply Hpath].
  apply set_choose_L in Hne as [x Hx].
  destruct (dfs_verts _ _ _ _ _ Hinv x Hx) as [b [Hb|Hb]].
  - destruct (dfs_ends _ _ _ _ _ Hinv x b Hb) as (_ & ? & ?). by apply (Hpath b).
  - destruct (dfs_ends _ _ _ _ _ Hinv b x Hb) as (_ & ? & ?). by apply (Hpath x).
Qed.

(** X18. the graph returned by [spanning_tree] is a tree inside [G]: its
    edges are edges of [G], no vertex has two incoming edges, the start
    has none, and unless it is empty it has one edge less than
    vertices. *)
Theorem spanning_tree_is_tree (O : IterOrder) (G : Digraph) (start : Z)
    (fuel : nat) :
  Digraph_wf G → start ∈ vertices G → num_edges G + 1 < fuel →
  ∃ T, spanning_tree O fuel G start = Return T ∧
    edges T ⊆ edges G ∧
    (∀ a a' b, (a, b) ∈ edges T → (a', b) ∈ edges T → a = a') ∧
    (∀ a, (a, start) ∉ edges T) ∧
    (vertices T ≠ ∅ → S (num_edges T) = num_vertices T).
Proof.
  intros Hwf Hs Hfuel.
  destruct (spanning_tree_spec O G start fuel Hwf Hs Hfuel) as (T & visited & HT & Hinv).
  exists T. split_and!; [done| | | |].
  - intros [a b]. rewrite !elem_of_edges. apply (dfs_sub _ _ _ _ _ Hinv).
  - intros a a' b. rewrite !elem_of_edges. apply (dfs_indeg _ _ _ _ _ Hinv).
  - intros a. rewrite elem_of_edges. intros Ha.
    by destruct (dfs_ends _ _ _ _ _ Hinv a start Ha) as (_ & _ & ?).
  - intros Hne. destruct (dfs_inv_vertices G start visited T Hinv) as [_ Heq].
    rewrite (dfs_count _ _ _ _ _ Hinv), <- (Heq Hne).
    unfold num_vertices, vertices. by rewrite size_dom.
Qed.

Lemma spanning_tree_is_tree_witness :
  ∃ T, spanning_tree canonical_order 20
         (graph_of [(1,2); (2,3); (3,1); (4,3); (3,5); (5,4); (6,7)]%Z) 1
       = Return T ∧
    edges T ⊆ edges (graph_of [(1,2); (2,3); (3,1); (4,3); (3,5); (5,4); (6,7)]%Z) ∧
    (∀ a a' b, (a, b) ∈ edges T → (a', b) ∈ edges T → a = a') ∧
    (∀ a, (a, 1%Z) ∉ edges T) ∧
    (vertices T ≠ ∅ → S (num_edges T) = num_vertices T).
Proof.
  apply (spanning_tree_is_tree canonical_order
           (graph_of [(1,2); (2,3); (3,1); (4,3); (3,5); (5,4); (6,7)]%Z) 1 20).
  - apply graph_of_wf.
  - apply (bool_decide_unpack _). vm_compute. exact I.
  - vm_compute. lia.
Defined.

(** X19. the tree spans what can be reached: a vertex other than the start
    is in the tree exactly when [G] has a path to it from the start, and
    every vertex of the tree is reached from the start inside the tree. *)
Theorem spanning_tree_spans (O : IterOrder) (G : Digraph) (start : Z)
    (fuel : nat) :
  Digraph_wf G → start ∈ vertices G → num_edges G + 1 < fuel →
  ∃ T, spanning_tree O fuel G start = Return T ∧
    (∀ v, v ≠ start →
          (v ∈ vertices T ↔ ∃ p, path_from_to G start v p)) ∧
    (∀ v, v ∈ vertices T → ∃ p, path_from_to T start v p).
Proof.
  intros Hwf Hs Hfuel.
  destruct (spanning_tree_spec O G start fuel Hwf Hs Hfuel) as (T & visited & HT & Hinv).
  destruct (dfs_inv_vertices G start visited T Hinv) as [Hsub Heq].
  assert (∀ v, v ∈ vertices T → ∃ p, path_from_to T start v p) as Hin.
  { intros v Hv. destruct (decide (v = start)) as [->|Hvs].
    - exists [start]. split_and!; [by apply valid_walk_singleton|done..].
    - apply (dfs_tpath _ _ _ _ _ Hinv); [by apply Hsub|done]. }
  exists T. split_and!; [done| |done].
  intros v Hvs. split.
  - intros Hv. destruct (Hin v Hv) as (p & Hp & Hh & Hl). exists p.
    split_and!; [|done..]. eapply valid_walk_mono; [| |exact Hp].
    + apply (dfs_sub _ _ _ _ _ Hinv).
    + pose proof (dfs_seen _ _ _ _ _ Hinv). set_solver.
  - intros (p & Hp). pose proof (dfs_inv_closed G start visited T Hinv p v Hp) as Hv.
    destruct (dfs_tpath _ _ _ _ _ Hinv v Hv Hvs) as (q & Hq & _ & Hl).
    by eapply valid_walk_last.
Qed.

Lemma spanning_tree_spans_witness :
  ∃ T, spanning_tree canonical_order 20
         (graph_of [(1,2); (2,3); (3,1); (4,3); (3,5); (5,4); (6,7)]%Z) 1
       = Return T ∧
    (∀ v, v ≠ 1%Z →
          (v ∈ vertices T ↔
           ∃ p, path_from_to
                  (graph_of [(1,2); (2,3); (3,1); (4,3); (3,5); (5,4); (6,7)]%Z)
                  1 v p)) ∧
    (∀ v, v ∈ vertices T → ∃ p, path_from_to T 1 v p).
Proof.
  apply (spanning_tree_spans canonical_order
           (graph_of [(1,2); (2,3); (3,1); (4,3); (3,5); (5,4); (6,7)]%Z) 1 20).
  - apply graph_of_wf.
  - apply (bool_decide_unpack _). vm_compute. exact I.
  - vm_compute. lia.
Defined.

(** X20. a start that is not in the graph: [G.adj_to(start)] raises. *)
Theorem spanning_tree_absent_start (O : IterOrder) (G : Digraph) (start : Z)
    (fuel : nat) :
  start ∉ vertices G → spanning_tree O (S fuel) G start = Raise KeyError.
Proof.
  intros Hs. unfold vertices in Hs. apply not_elem_of_dom in Hs.
  unfold spanning_tree. simpl. rewrite decide_False by set_solver.
  unfold adj_to, getitem. by rewrite Hs.
Qed.

Lemma spanning_tree_absent_start_witness :
  spanning_tree canonical_order (S 5) (graph_of [(1, 2)]%Z) 0 = Raise KeyError.
Proof.
  apply (spanning_tree_absent_start canonical_order (graph_of [(1, 2)]%Z) 0 5).
  vm_compute. intros H. inversion H.
Defined.

(** X21. a start with no neighbour but itself: the result is the empty
    graph, which does not even contain the start. *)
Theorem spanning_tree_lonely_start (O : IterOrder) (G : Digraph) (start : Z)
    (fuel : nat) :
  start ∈ vertices G → (∀ n, (start, n) ∈ edges G → n = start) →
  spanning_tree O (S (S fuel)) G start = Return Digraph_empty.
Proof.
  intros Hs Hlonely. unfold vertices in Hs. apply elem_of_dom in Hs as [adjs Hadj].
  unfold spanning_tree. simpl. rewrite decide_False by set_solver.
  unfold adj_to, getitem. rewrite Hadj. simpl.
  rewrite spanning_tree_for_fold.
  assert (filter (λ n, n ∉ (∅ ∪ {[start]} : gset Z)) (set_iter O adjs) = []) as ->.
  { destruct (filter _ _) as [|x l] eqn:Hf; [done|].
    assert (x ∈ x :: l) as Hx by left. rewrite <- Hf in Hx.
    apply list_elem_of_filter in Hx as [Hx Hin]. apply set_iter_elem in Hin.
    destruct Hx. rewrite (Hlonely x); [set_solver|].
    apply elem_of_edges. by exists adjs. }
  done.
Qed.

Lemma spanning_tree_lonely_start_witness :
  spanning_tree canonical_order (S (S 0)) (graph_of [(1, 1); (2, 1)]%Z) 1
  = Return Digraph_empty.
Proof.
  apply (spanning_tree_lonely_start canonical_order (graph_of [(1, 1); (2, 1)]%Z) 1 0).
  - apply (bool_decide_unpack _). vm_compute. exact I.
  - intros n Hn. apply elem_of_edges in Hn as (s & Hs & Hn).
    vm_compute in Hs. injection Hs as <-.
    apply elem_of_elements in Hn. vm_compute in Hn.
    apply list_elem_of_singleton in Hn. done.
Defined.

Example spanning_tree_example :
  ∃ T, spanning_tree canonical_order 20
         (graph_of [(1,2); (2,3); (3,1); (4,3); (3,5); (5,4); (6,7)]%Z) 1 = Return T ∧
       edges T = list_to_set [(1, 2); (2, 3); (3, 5); (5, 4)]%Z.
Proof.
  eexists. split; [vm_compute; reflexivity|].
  apply (bool_decide_unpack _). vm_compute. exact I.
Qed.
